(** * kindrahealth: consultation stream handling, payload validation and
      plain-text formatters

    The development follows the three TypeScript sources of the repository:
    - the zod schemas of the consultation summary response
      ([ConsultationSummaryResponseSchema] and its parts),
    - the page component's [handleSubmit] with its server-sent-event
      handler [onmessage],
    - the formatters [formatClinicalSummary] and [formatNextSteps]
      ([formatPatientEmail] upper-cases the first letter of free text and
      is left out).

    JavaScript objects decoded from JSON are finite maps from property names
    to values ([gmap string json]); equality of such maps is extensional, so
    Leibniz equality on [json] is deep equality (property order and object
    identity do not count). *)

From stdpp Require Import gmap strings list fin_maps.
From Stdlib Require Import Ascii DecimalString.

#[local] Set Warnings "-register-all".

(** ** JSON values *)

(** What [JSON.parse] can return.  A number is carried as its canonical
    rendering ([Number::toString]); no schema of the repository accepts a
    number, so only its type tag and its rendering are ever observed. *)
Inductive json : Type :=
  | JNull
  | JBool (b : bool)
  | JNum (lit : string)
  | JStr (s : string)
  | JArr (items : list json)
  | JObj (props : gmap string json).

(** A JavaScript value read out of decoded JSON: a JSON value, or
    [undefined] ([None]) when a property is not there. *)
Abbreviation value := (option json).
Abbreviation undefined := (@None json).

(** zod's [getParsedType], restricted to the values above. *)
Inductive ZodParsedType : Type :=
  | t_undefined | t_null | t_boolean | t_number | t_string | t_array | t_object.

Definition getParsedType (data : value) : ZodParsedType :=
  match data with
  | None => t_undefined
  | Some JNull => t_null
  | Some (JBool _) => t_boolean
  | Some (JNum _) => t_number
  | Some (JStr _) => t_string
  | Some (JArr _) => t_array
  | Some (JObj _) => t_object
  end.

(** Truthiness ([if (x)]) of a value. *)
Definition truthy_string (s : string) : bool :=
  match s with EmptyString => false | _ => true end.

(** ** The zod fragment used by the schemas

    [z.string()], [z.enum([...])], [z.array(...)], [z.object({...})] in its
    default mode (unrecognized keys are stripped), [.optional()] and
    [.nullable()].  zod is a dependency of the repository; its parsing is
    written here after the library: [ZodType._parse] for each of these
    types, [ParseStatus.mergeArray] and [ParseStatus.mergeObjectSync], and
    [safeParse]. *)

Inductive ZodType : Type :=
  | ZodString
  | ZodEnum (values : list string)
  | ZodArray (element : ZodType)
  | ZodObject (shape : list (string * ZodType))
  | ZodOptional (inner : ZodType)
  | ZodNullable (inner : ZodType).

Inductive PathSeg : Type :=
  | Key (k : string)
  | Index (i : nat).

#[export] Instance PathSeg_eq_dec : EqDecision PathSeg.
Proof. solve_decision. Defined.

(** An entry of a validation report.  The codes and fields are those of
    zod 3; zod 4 reports the same paths under other codes.  The properties
    below are about the path of an entry and the number of entries, not
    about what else an entry holds. *)
Inductive ZodIssue : Type :=
  | invalid_type (expected : string) (received : ZodParsedType)
                 (path : list PathSeg)
  | invalid_enum_value (options : list string) (received : string)
                       (path : list PathSeg).

Definition issue_path (i : ZodIssue) : list PathSeg :=
  match i with
  | invalid_type _ _ p => p
  | invalid_enum_value _ _ p => p
  end.

(** The status part of zod's [ParseReturnType]: [OK] carries the output
    value, [INVALID] is the aborted status. *)
Inductive ParseReturn : Type :=
  | OK (v : value)
  | INVALID.

Definition isValid (r : ParseReturn) : bool :=
  match r with OK _ => true | INVALID => false end.

(** zod's [util.joinValues]: the expectation shown for an enum. *)
Definition joinValues (values : list string) : string :=
  String.concat " | " (map (fun v => "'" +:+ v +:+ "'") values).

(** [ParseStatus.mergeArray]: every element has been parsed already and has
    reported its issues; the array is valid when all elements are. *)
Definition element_output (r : list ZodIssue * ParseReturn) : option json :=
  match snd r with
  | OK (Some j) => Some j
  | _ => None
  end.

Definition mergeArray (results : list (list ZodIssue * ParseReturn))
  : list ZodIssue * ParseReturn :=
  (concat (map fst results),
   if forallb (fun r => isValid (snd r)) results
   then OK (Some (JArr (omap element_output results)))
   else INVALID).

(** [ParseStatus.mergeObjectSync]: the final object is filled by assignment,
    one shape key after the other; a key enters it when its parsed value is
    defined.  (zod also sets a key that was in the input whatever its parsed
    value; a key of decoded JSON never holds [undefined], and such a value
    never parses to [undefined], see [_parse_defined], so that rule adds no
    key here.) *)
Definition assign (obj : gmap string json)
    (pr : string * (list ZodIssue * ParseReturn)) : gmap string json :=
  match snd (snd pr) with
  | OK (Some j) => <[fst pr := j]> obj
  | _ => obj
  end.

Definition finalObject (pairs : list (string * (list ZodIssue * ParseReturn)))
  : gmap string json :=
  foldl assign ∅ pairs.

Definition mergeObjectSync (pairs : list (string * (list ZodIssue * ParseReturn)))
  : list ZodIssue * ParseReturn :=
  (concat (map (fun pr => fst (snd pr)) pairs),
   if forallb (fun pr => isValid (snd (snd pr))) pairs
   then OK (Some (JObj (finalObject pairs)))
   else INVALID).

(** [_parse]: one pass over the schema; the first component is the list of
    issues added to the context, in the order zod adds them. *)
Fixpoint _parse (τ : ZodType) (path : list PathSeg) (input : value)
  : list ZodIssue * ParseReturn :=
  match τ with
  | ZodString =>
      match input with
      | Some (JStr _) => ([], OK input)
      | _ => ([invalid_type "string" (getParsedType input) path], INVALID)
      end
  | ZodEnum values =>
      match input with
      | Some (JStr s) =>
          if bool_decide (s ∈ values) then ([], OK input)
          else ([invalid_enum_value values s path], INVALID)
      | _ => ([invalid_type (joinValues values) (getParsedType input) path],
              INVALID)
      end
  | ZodArray element =>
      match input with
      | Some (JArr items) =>
          mergeArray
            (imap (fun i item => _parse element (path ++ [Index i]) (Some item))
                  items)
      | _ => ([invalid_type "array" (getParsedType input) path], INVALID)
      end
  | ZodObject shape =>
      match input with
      | Some (JObj props) =>
          mergeObjectSync
            (map (fun kv =>
                    (fst kv,
                     _parse (snd kv) (path ++ [Key (fst kv)]) (props !! fst kv)))
                 shape)
      | _ => ([invalid_type "object" (getParsedType input) path], INVALID)
      end
  | ZodOptional inner =>
      match input with
      | None => ([], OK undefined)
      | _ => _parse inner path input
      end
  | ZodNullable inner =>
      match input with
      | Some JNull => ([], OK (Some JNull))
      | _ => _parse inner path input
      end
  end.

Inductive SafeParseReturn : Type :=
  | SafeParseSuccess (data : value)
  | SafeParseError (issues : list ZodIssue).

(** [schema.safeParse(data)]. *)
Definition safeParse (τ : ZodType) (data : value) : SafeParseReturn :=
  match _parse τ [] data with
  | (_, OK v) => SafeParseSuccess v
  | (issues, INVALID) => SafeParseError issues
  end.

(** ** The schemas of the repository *)

Definition optional (τ : ZodType) : ZodType := ZodOptional τ.
Definition nullable (τ : ZodType) : ZodType := ZodNullable τ.

Definition PhysicalExamFindingSchema : ZodType :=
  ZodObject [("body_part", ZodString); ("finding", ZodString)].

Definition AssessmentSchema : ZodType :=
  ZodObject
    [("diagnosis", ZodString);
     ("icd_code", nullable (optional ZodString));
     ("severity", nullable (optional (ZodEnum ["mild"; "moderate"; "severe"])))].

Definition ClinicalSummarySchema : ZodType :=
  ZodObject
    [("patient_name", ZodString);
     ("visit_date", ZodString);
     ("chief_complaint", ZodString);
     ("history_of_present_illness", ZodString);
     ("vital_signs", nullable (optional ZodString));
     ("physical_exam_findings", ZodArray PhysicalExamFindingSchema);
     ("assessments", ZodArray AssessmentSchema);
     ("additional_notes", nullable (optional ZodString))].

Definition PatientInstructionSchema : ZodType :=
  ZodObject [("instruction", ZodString); ("category", ZodString)].

Definition PatientFollowUpEmailSchema : ZodType :=
  ZodObject
    [("greeting", ZodString);
     ("summary_of_findings", ZodString);
     ("treatment_plan", ZodString);
     ("patient_instructions", ZodArray PatientInstructionSchema);
     ("warning_signs", ZodArray ZodString);
     ("next_steps_timeline", ZodString);
     ("closing", ZodString);
     ("physician_signature", ZodString)].

Definition NextStepActionSchema : ZodType :=
  ZodObject
    [("action_type",
      ZodEnum ["diagnostic"; "treatment"; "referral"; "follow-up"; "education"]);
     ("description", ZodString);
     ("priority", nullable (optional (ZodEnum ["high"; "medium"; "low"])));
     ("timeline", nullable (optional ZodString))].

Definition NextStepsSchema : ZodType :=
  ZodObject
    [("actions", ZodArray NextStepActionSchema);
     ("follow_up_appointment", nullable (optional ZodString));
     ("red_flags", nullable (optional (ZodArray ZodString)))].

Definition ConsultationSummaryResponseSchema : ZodType :=
  ZodObject
    [("clinical_summary", ClinicalSummarySchema);
     ("next_steps", NextStepsSchema);
     ("patient_email", PatientFollowUpEmailSchema);
     ("generation_timestamp", ZodString);
     ("model_version", nullable (optional ZodString))].

(** ** The payload shape of the data model, stated on its own

    [conforms τ v]: every required field is there with the right primitive
    type, every enumerated field holds one of its tokens, every declared
    array is an array.  Nothing is said about further keys. *)
Fixpoint conforms (τ : ZodType) (v : value) : bool :=
  match τ with
  | ZodString => match v with Some (JStr _) => true | _ => false end
  | ZodEnum values =>
      match v with Some (JStr s) => bool_decide (s ∈ values) | _ => false end
  | ZodArray element =>
      match v with
      | Some (JArr items) =>
          forallb (fun item => conforms element (Some item)) items
      | _ => false
      end
  | ZodObject shape =>
      match v with
      | Some (JObj props) =>
          forallb (fun kv => conforms (snd kv) (props !! fst kv)) shape
      | _ => false
      end
  | ZodOptional inner => match v with None => true | _ => conforms inner v end
  | ZodNullable inner =>
      match v with Some JNull => true | _ => conforms inner v end
  end.

(** [no_extra τ v]: no object of [v] that the schema describes carries a key
    the schema does not name. *)
Fixpoint no_extra (τ : ZodType) (v : value) : bool :=
  match τ with
  | ZodString | ZodEnum _ => true
  | ZodArray element =>
      match v with
      | Some (JArr items) =>
          forallb (fun item => no_extra element (Some item)) items
      | _ => true
      end
  | ZodObject shape =>
      match v with
      | Some (JObj props) =>
          bool_decide (dom props ⊆ list_to_set (map fst shape))
          && forallb (fun kv => no_extra (snd kv) (props !! fst kv)) shape
      | _ => true
      end
  | ZodOptional inner => no_extra inner v
  | ZodNullable inner => no_extra inner v
  end.

(** [recognised τ v]: the payload [v] without the keys that the schema does
    not name, at every object the schema describes. *)
Fixpoint recognised (τ : ZodType) (v : json) : json :=
  match τ with
  | ZodArray element =>
      match v with
      | JArr items => JArr (map (recognised element) items)
      | _ => v
      end
  | ZodObject shape =>
      match v with
      | JObj props =>
          JObj (map_imap
                  (fun k j =>
                     (fix pick (sh : list (string * ZodType)) : option json :=
                        match sh with
                        | [] => None
                        | kv :: sh' =>
                            if bool_decide (fst kv = k)
                            then Some (recognised (snd kv) j)
                            else pick sh'
                        end) shape)
                  props)
      | _ => v
      end
  | ZodOptional inner => recognised inner v
  | ZodNullable inner => recognised inner v
  | _ => v
  end.

(** An object literal has each key once: the shapes are association lists
    without repeated keys. *)
Fixpoint wf_schema (τ : ZodType) : bool :=
  match τ with
  | ZodString | ZodEnum _ => true
  | ZodArray element => wf_schema element
  | ZodObject shape =>
      bool_decide (NoDup (map fst shape))
      && forallb (fun kv => wf_schema (snd kv)) shape
  | ZodOptional inner => wf_schema inner
  | ZodNullable inner => wf_schema inner
  end.

(** Structural induction on schemas, with the hypothesis for every field of
    an object shape. *)
Section ZodType_induction.
Variable P : ZodType → Prop.
Hypothesis HString : P ZodString.
Hypothesis HEnum : ∀ values, P (ZodEnum values).
Hypothesis HArray : ∀ element, P element → P (ZodArray element).
Hypothesis HObject :
  ∀ shape, Forall (fun kv => P (snd kv)) shape → P (ZodObject shape).
Hypothesis HOptional : ∀ inner, P inner → P (ZodOptional inner).
Hypothesis HNullable : ∀ inner, P inner → P (ZodNullable inner).

Fixpoint ZodType_shape_ind (τ : ZodType) : P τ :=
  match τ with
  | ZodString => HString
  | ZodEnum values => HEnum values
  | ZodArray element => HArray element (ZodType_shape_ind element)
  | ZodObject shape =>
      HObject shape
        ((fix go (sh : list (string * ZodType))
            : Forall (fun kv => P (snd kv)) sh :=
            match sh with
            | [] => List.Forall_nil _
            | kv :: sh' =>
                List.Forall_cons _ kv sh' (ZodType_shape_ind (snd kv)) (go sh')
            end) shape)
  | ZodOptional inner => HOptional inner (ZodType_shape_ind inner)
  | ZodNullable inner => HNullable inner (ZodType_shape_ind inner)
  end.
End ZodType_induction.

(** ** The page component: [handleSubmit] and its stream handlers *)

(** What a JavaScript statement can do: complete normally or throw. *)
Inductive exn : Type :=
  | SyntaxError
  | TypeError.

Inductive completion (A : Type) : Type :=
  | Normal (a : A)
  | Throw (e : exn).
Arguments Normal {A} a.
Arguments Throw {A} e.

(** Sequencing: a throw skips what follows. *)
#[export] Instance completion_bind : MBind completion :=
  fun A B (k : A → completion B) (c : completion A) =>
    match c with
    | Normal a => k a
    | Throw e => Throw e
    end.

(** [String(v)], the coercion behind [+=] on a string and template
    literals.  An array is joined with commas, a [null] element giving the
    empty text.  An object gives [[object Object]], unless it has an own
    [toString] key: decoded JSON holds no function, so that [toString] is
    not callable, the inherited [valueOf] returns the object itself, and
    the coercion throws a [TypeError]. *)
Fixpoint ToString (v : json) : completion string :=
  match v with
  | JNull => Normal "null"
  | JBool true => Normal "true"
  | JBool false => Normal "false"
  | JNum lit => Normal lit
  | JStr s => Normal s
  | JArr items =>
      parts ← (fix join (l : list json) : completion (list string) :=
                 match l with
                 | [] => Normal []
                 | e :: l' =>
                     s ← match e with
                         | JNull => Normal ""
                         | _ => ToString e
                         end;
                     rest ← join l';
                     Normal (s :: rest)
                 end) items;
      Normal (String.concat "," parts)
  | JObj props =>
      if bool_decide (is_Some (props !! "toString")) then Throw TypeError
      else Normal "[object Object]"
  end.

Definition ToString_value (v : value) : completion string :=
  match v with
  | None => Normal "undefined"
  | Some j => ToString j
  end.

(** [v.k] for one of the property names the handler reads ([type],
    [content], [data], [message]): reading a property of [null] throws, a
    primitive or an array has no such property. *)
Definition member (v : json) (k : string) : completion value :=
  match v with
  | JNull => Throw TypeError
  | JObj props => Normal (props !! k)
  | _ => Normal undefined
  end.

(** [v === 'lit']: the comparison a [switch] makes against a string
    [case]. *)
Definition strict_equals (v : value) (lit : string) : bool :=
  match v with
  | Some (JStr s) => bool_decide (s = lit)
  | _ => false
  end.

(** What the component does to the outside. *)
Inductive console_arg : Type :=
  | arg_value (v : value)
  | arg_text (s : string)
  | arg_exn (e : exn)
  | arg_ZodError (issues : list ZodIssue).

Record RequestBody : Type := {
  body_patient_name : string;
  body_date_of_visit : option string;
  body_notes : string
}.

Inductive effect : Type :=
  | console_log (label : string) (arg : option console_arg)
  | console_warn (label : string) (arg : console_arg)
  | console_error (label : string) (arg : console_arg)
  | alert (message : string)
  | fetchEventSource (url : string) (authorization : string)
                     (body : RequestBody)
  | abort.

(** The React state of [ConsultationForm].  [visitDate] holds the day as
    [toISOString().slice(0, 10)] gives it; [structuredOutput] is [None]
    while it is [null]. *)
Record ConsultationForm : Type := {
  patientName : string;
  visitDate : option string;
  notes : string;
  structuredOutput : value;
  output : string;
  loading : bool;
  streamingBuffer : string
}.

Definition setOutput (s : string) (f : ConsultationForm) : ConsultationForm :=
  {| patientName := patientName f; visitDate := visitDate f; notes := notes f;
     structuredOutput := structuredOutput f; output := s;
     loading := loading f; streamingBuffer := streamingBuffer f |}.

Definition setLoading (b : bool) (f : ConsultationForm) : ConsultationForm :=
  {| patientName := patientName f; visitDate := visitDate f; notes := notes f;
     structuredOutput := structuredOutput f; output := output f;
     loading := b; streamingBuffer := streamingBuffer f |}.

Definition setStructuredOutput (v : value) (f : ConsultationForm)
  : ConsultationForm :=
  {| patientName := patientName f; visitDate := visitDate f; notes := notes f;
     structuredOutput := v; output := output f;
     loading := loading f; streamingBuffer := streamingBuffer f |}.

(** One run of [handleSubmit]: the component state, the local [buffer] of
    the closure, and the effects so far (oldest first). *)
Record session : Type := {
  form : ConsultationForm;
  buffer : string;
  effects : list effect
}.

Definition with_form (g : ConsultationForm → ConsultationForm) (st : session)
  : session :=
  {| form := g (form st); buffer := buffer st; effects := effects st |}.

Definition with_buffer (b : string) (st : session) : session :=
  {| form := form st; buffer := b; effects := effects st |}.

Definition emit (e : effect) (st : session) : session :=
  {| form := form st; buffer := buffer st; effects := effects st ++ [e] |}.

(** Statements of a handler: each runs on the session and completes
    normally or throws; what was done before a throw stays done. *)
Definition block (A : Type) : Type := session → completion A * session.

#[export] Instance block_bind : MBind block :=
  fun A B (k : A → block B) (m : block A) (st : session) =>
    match m st with
    | (Normal a, st') => k a st'
    | (Throw e, st') => (Throw e, st')
    end.

(** An expression that does not touch the session. *)
Definition eval {A} (c : completion A) : block A := fun st => (c, st).

(** A statement that changes the session and cannot throw. *)
Definition update (g : session → session) : block unit :=
  fun st => (Normal tt, g st).

Definition try_catch (body : block unit) (handler : exn → block unit)
  : block unit :=
  fun st =>
    match body st with
    | (Normal a, st') => (Normal a, st')
    | (Throw e, st') => handler e st'
    end.

(** A handler called on a session: the session it leaves, or the throw
    that reaches the caller. *)
Definition call (body : block unit) (st : session) : completion session :=
  match body st with
  | (Normal _, st') => Normal st'
  | (Throw e, _) => Throw e
  end.

Record MessageEvent : Type := { data : string }.

Inductive transport_event : Type :=
  | Message (ev : MessageEvent)
  | Closed
  | Errored (err : string).

Section Stream.

(** [JSON.parse] belongs to the runtime: [None] stands for the
    [SyntaxError] it throws on text that is not JSON. *)
Variable JSON_parse : string → option json.

Definition JSON_parse_or_throw (text : string) : completion json :=
  match JSON_parse text with
  | Some v => Normal v
  | None => Throw SyntaxError
  end.

(** The body of the [try] block of [onmessage]. *)
Definition onmessage_try (ev : MessageEvent) : block unit :=
  parsed ← eval (JSON_parse_or_throw (data ev));
  type ← eval (member parsed "type");
  if strict_equals type "chunk" then
    content ← eval (member parsed "content");
    text ← eval (ToString_value content);
    update (fun st => with_buffer (buffer st +:+ text) st)
  else if strict_equals type "complete" then
    update (emit (console_log "Stream complete, received validated data"
                              None));;
    payload ← eval (member parsed "data");
    match safeParse ConsultationSummaryResponseSchema payload with
    | SafeParseSuccess result_data =>
        update (with_form (setStructuredOutput result_data));;
        update (with_form (setLoading false))
    | SafeParseError issues =>
        update (emit (console_error "Validation failed:"
                                    (arg_ZodError issues)));;
        update (emit (alert "Failed to validate response"));;
        update (with_form (setLoading false))
    end
  else if strict_equals type "error" then
    message ← eval (member parsed "message");
    update (emit (console_error "Backend error:" (arg_value message)));;
    text ← eval (ToString_value message);
    update (emit (alert ("Error: " +:+ text)));;
    update (with_form (setLoading false))
  else
    update (emit (console_warn "Unknown message type:" (arg_value type))).

Definition onmessage (ev : MessageEvent) (st : session)
  : completion session :=
  call
    (try_catch (onmessage_try ev)
       (fun err =>
          update (emit (console_error "Failed to parse SSE message:"
                                      (arg_exn err)));;
          update (emit (console_log "Raw data:"
                                    (Some (arg_text (data ev)))))))
    st.

Definition onclose (st : session) : session :=
  with_form (setLoading false) st.

Definition onerror (err : string) (st : session) : session :=
  let st := emit (console_error "SSE error:" (arg_text err)) st in
  let st := emit abort st in
  with_form (setLoading false) st.

Definition dispatch (t : transport_event) (st : session)
  : completion session :=
  match t with
  | Message ev => onmessage ev st
  | Closed => Normal (onclose st)
  | Errored err => Normal (onerror err st)
  end.

(** The transport calls the handlers, one event after the other. *)
Fixpoint deliver (events : list transport_event) (st : session)
  : completion session :=
  match events with
  | [] => Normal st
  | t :: events' => st' ← dispatch t st; deliver events' st'
  end.

(** [handleSubmit]: [token] is what [getToken()] resolved to, [events] what
    the transport delivers once the connection is requested, [before] the
    effects before the submission.  Without a token the function returns
    before [buffer] is declared; the session then shows it empty. *)
Definition handleSubmit (token : option string)
    (events : list transport_event) (f : ConsultationForm)
    (before : list effect) : completion session :=
  let f := setOutput "" f in
  let f := setLoading true f in
  match token with
  | Some jwt =>
      if truthy_string jwt then
        let st := {| form := f; buffer := ""; effects := before |} in
        let st :=
          emit (fetchEventSource "/api/consultation" ("Bearer " +:+ jwt)
                  {| body_patient_name := patientName f;
                     body_date_of_visit := visitDate f;
                     body_notes := notes f |}) st in
        deliver events st
      else
        let f := setOutput "Authentication required" f in
        let f := setLoading false f in
        Normal {| form := f; buffer := ""; effects := before |}
  | None =>
      let f := setOutput "Authentication required" f in
      let f := setLoading false f in
      Normal {| form := f; buffer := ""; effects := before |}
  end.

(** The decoded message is an object whose [type] is [ty] and whose
    property [field] holds [v]. *)
Definition envelope (ev : MessageEvent) (ty field : string) (v : value)
  : Prop :=
  ∃ props, JSON_parse (data ev) = Some (JObj props)
           ∧ props !! "type" = Some (JStr ty)
           ∧ props !! field = v.

End Stream.

(** ** The validated payload as the formatters see it ([z.infer]) *)

(** [T | null | undefined], the type of an [.optional().nullable()] field. *)
Inductive maybe (A : Type) : Type :=
  | Absent
  | Null
  | Present (a : A).
Arguments Absent {A}.
Arguments Null {A}.
Arguments Present {A} a.

Inductive Severity : Type := mild | moderate | severe.
Inductive ActionType : Type :=
  diagnostic | treatment | referral | follow_up | education.
Inductive Priority : Type := high | medium | low.

Definition Severity_token (s : Severity) : string :=
  match s with mild => "mild" | moderate => "moderate" | severe => "severe" end.

Definition ActionType_token (a : ActionType) : string :=
  match a with
  | diagnostic => "diagnostic"
  | treatment => "treatment"
  | referral => "referral"
  | follow_up => "follow-up"
  | education => "education"
  end.

Definition Priority_token (p : Priority) : string :=
  match p with high => "high" | medium => "medium" | low => "low" end.

Record PhysicalExamFinding : Type := {
  body_part : string;
  finding : string
}.

Record Assessment : Type := {
  diagnosis : string;
  icd_code : maybe string;
  severity : maybe Severity
}.

Record ClinicalSummary : Type := {
  patient_name : string;
  visit_date : string;
  chief_complaint : string;
  history_of_present_illness : string;
  vital_signs : maybe string;
  physical_exam_findings : list PhysicalExamFinding;
  assessments : list Assessment;
  additional_notes : maybe string
}.

Record NextStepAction : Type := {
  action_type : ActionType;
  description : string;
  priority : maybe Priority;
  timeline : maybe string
}.

Record NextSteps : Type := {
  actions : list NextStepAction;
  follow_up_appointment : maybe string;
  red_flags : maybe (list string)
}.

(** ** JavaScript helpers of the formatters *)

Definition LF : string := String (ascii_of_nat 10) "".

(** [if (x)] on a [string | null | undefined]: only a non-empty string
    passes. *)
Definition truthy (x : maybe string) : bool :=
  match x with
  | Present s => truthy_string s
  | _ => false
  end.

(** The text a truthy field interpolates. *)
Definition text_of (x : maybe string) : string :=
  match x with
  | Present s => s
  | Null => "null"
  | Absent => "undefined"
  end.

(** [`${n}`] for a non-negative integer. *)
Definition Number_toString (n : nat) : string :=
  NilEmpty.string_of_uint (Nat.to_uint n).

(** [toUpperCase] on ASCII text, which is all an [action_type] holds. *)
Definition upper_ascii (c : ascii) : ascii :=
  let n := nat_of_ascii c in
  if (97 <=? n)%nat && (n <=? 122)%nat then ascii_of_nat (n - 32) else c.

Fixpoint toUpperCase (s : string) : string :=
  match s with
  | EmptyString => EmptyString
  | String c s' => String (upper_ascii c) (toUpperCase s')
  end.

(** [array.forEach((x, i) => ...)] with a callback that updates the
    enclosing [output]. *)
Fixpoint forEach_from {A St : Type} (i : nat) (l : list A)
    (callback : A → nat → St → St) (s : St) : St :=
  match l with
  | [] => s
  | x :: l' => forEach_from (S i) l' callback (callback x i s)
  end.

Definition forEach {A St : Type} (l : list A) (callback : A → nat → St → St)
    (s : St) : St :=
  forEach_from 0 l callback s.

(** ** The formatters *)

Definition formatClinicalSummary (summary : ClinicalSummary) : string :=
  let output :=
    "Patient: " +:+ patient_name summary +:+ LF +:+
    "Date: " +:+ visit_date summary +:+ LF +:+
    LF +:+
    "Chief Complaint: " +:+ chief_complaint summary +:+ LF +:+
    LF +:+
    "History of Present Illness:" +:+ LF +:+
    history_of_present_illness summary +:+ LF in
  let output :=
    if truthy (vital_signs summary) then
      output +:+ LF +:+ "Vital Signs:" +:+ LF +:+
      text_of (vital_signs summary) +:+ LF
    else output in
  let output :=
    if (0 <? length (physical_exam_findings summary))%nat then
      let output := output +:+ LF +:+ "Physical Examination:" +:+ LF in
      forEach (physical_exam_findings summary)
        (fun finding0 _ output =>
           output +:+ "- " +:+ body_part finding0 +:+ ": " +:+
           finding finding0 +:+ LF)
        output
    else output in
  let output := output +:+ LF +:+ "Assessment:" +:+ LF in
  let output :=
    forEach (assessments summary)
      (fun assessment i output =>
         let output :=
           output +:+ Number_toString (i + 1) +:+ ". " +:+
           diagnosis assessment in
         let output :=
           if truthy (icd_code assessment) then
             output +:+ " (ICD-10: " +:+ text_of (icd_code assessment) +:+ ")"
           else output in
         let output :=
           match severity assessment with
           | Present sev => output +:+ " - Severity: " +:+ Severity_token sev
           | _ => output
           end in
         output +:+ LF)
      output in
  let output :=
    if truthy (additional_notes summary) then
      output +:+ LF +:+ "Additional Notes:" +:+ LF +:+
      text_of (additional_notes summary) +:+ LF
    else output in
  output.

(** The header of the red-flags block: a blank line, the warning sign
    (U+26A0 U+FE0F) and the text. *)
Definition red_flags_header : string :=
  LF +:+ "⚠️ Red Flags - Call immediately if:" +:+ LF.

Definition formatNextSteps (nextSteps : NextSteps) : string :=
  let output := "" in
  let output :=
    forEach (actions nextSteps)
      (fun action i output =>
         let output :=
           output +:+ Number_toString (i + 1) +:+ ". [" +:+
           toUpperCase (ActionType_token (action_type action)) +:+ "] " +:+
           description action in
         let output :=
           if truthy (timeline action) then
             output +:+ " (Timeline: " +:+ text_of (timeline action) +:+ ")"
           else output in
         let output :=
           match priority action with
           | Present p => output +:+ " [Priority: " +:+ Priority_token p +:+ "]"
           | _ => output
           end in
         output +:+ LF)
      output in
  let output :=
    if truthy (follow_up_appointment nextSteps) then
      output +:+ LF +:+ "Follow-up Appointment: " +:+
      text_of (follow_up_appointment nextSteps) +:+ LF
    else output in
  let output :=
    match red_flags nextSteps with
    | Present flags =>
        if (0 <? length flags)%nat then
          let output := output +:+ red_flags_header in
          forEach flags (fun flag _ output => output +:+ "- " +:+ flag +:+ LF)
                  output
        else output
    | _ => output
    end in
  output.

(** ** Violations of a payload, located by path

    The validator's report is compared with a description of the violations
    that does not run the validator: walk schema and payload together along a
    path, and look at the node the path ends at. *)

(** The schema under its [.optional()] and [.nullable()] wrappers. *)
Fixpoint unwrap (τ : ZodType) : ZodType :=
  match τ with
  | ZodOptional inner => unwrap inner
  | ZodNullable inner => unwrap inner
  | _ => τ
  end.

Fixpoint shape_lookup (k : string) (shape : list (string * ZodType))
  : option ZodType :=
  match shape with
  | [] => None
  | kv :: shape' =>
      if bool_decide (fst kv = k) then Some (snd kv) else shape_lookup k shape'
  end.

(** [locate p τ v]: the schema and the value at path [p], when every node on
    the way is an object (for a key) or an array (for an index) as the
    schema says. *)
Fixpoint locate (p : list PathSeg) (τ : ZodType) (v : value)
  : option (ZodType * value) :=
  match p with
  | [] => Some (τ, v)
  | seg :: p' =>
      match seg, unwrap τ, v with
      | Key k, ZodObject shape, Some (JObj props) =>
          match shape_lookup k shape with
          | Some τ' => locate p' τ' (props !! k)
          | None => None
          end
      | Index i, ZodArray element, Some (JArr items) =>
          match items !! i with
          | Some item => locate p' element (Some item)
          | None => None
          end
      | _, _, _ => None
      end
  end.

(** The node itself is wrong: a required value is missing, the primitive
    type is not the declared one, or an enumerated field holds no token of
    its set.  [undefined] is fine under [.optional()], [null] under
    [.nullable()]. *)
Fixpoint violates (τ : ZodType) (v : value) : bool :=
  match τ with
  | ZodString => match v with Some (JStr _) => false | _ => true end
  | ZodEnum values =>
      match v with
      | Some (JStr s) => negb (bool_decide (s ∈ values))
      | _ => true
      end
  | ZodArray _ => match v with Some (JArr _) => false | _ => true end
  | ZodObject _ => match v with Some (JObj _) => false | _ => true end
  | ZodOptional inner => match v with None => false | _ => violates inner v end
  | ZodNullable inner =>
      match v with Some JNull => false | _ => violates inner v end
  end.

Definition violation_at (τ : ZodType) (v : value) (p : list PathSeg) : bool :=
  match locate p τ v with
  | Some (τ', v') => violates τ' v'
  | None => false
  end.

(** The number of entries a report has for a path. *)
Definition count_at (p : list PathSeg) (issues : list ZodIssue) : nat :=
  length (filter (fun i => issue_path i = p) issues).

Definition with_prefix (pre : list PathSeg) (i : ZodIssue) : ZodIssue :=
  match i with
  | invalid_type e r p => invalid_type e r (pre ++ p)
  | invalid_enum_value o r p => invalid_enum_value o r (pre ++ p)
  end.

(** Plain navigation in a payload: [payload.a[i].b]. *)
Fixpoint get_path (p : list PathSeg) (v : value) : value :=
  match p with
  | [] => v
  | seg :: p' =>
      match seg, v with
      | Key k, Some (JObj props) => get_path p' (props !! k)
      | Index i, Some (JArr items) => get_path p' (items !! i)
      | _, _ => None
      end
  end.

Fixpoint schema_at (p : list PathSeg) (τ : ZodType) : option ZodType :=
  match p with
  | [] => Some τ
  | seg :: p' =>
      match seg, unwrap τ with
      | Key k, ZodObject shape =>
          match shape_lookup k shape with
          | Some τ' => schema_at p' τ'
          | None => None
          end
      | Index _, ZodArray element => schema_at p' element
      | _, _ => None
      end
  end.

(** The three enumerated fields of the payload, each inside the [i]-th
    element of its array. *)
Inductive EnumField : Type :=
  | assessment_severity
  | action_action_type
  | action_priority.

Definition enum_path (f : EnumField) (i : nat) : list PathSeg :=
  match f with
  | assessment_severity =>
      [Key "clinical_summary"; Key "assessments"; Index i; Key "severity"]
  | action_action_type =>
      [Key "next_steps"; Key "actions"; Index i; Key "action_type"]
  | action_priority =>
      [Key "next_steps"; Key "actions"; Index i; Key "priority"]
  end.

Definition enum_tokens (f : EnumField) : list string :=
  match f with
  | assessment_severity => ["mild"; "moderate"; "severe"]
  | action_action_type =>
      ["diagnostic"; "treatment"; "referral"; "follow-up"; "education"]
  | action_priority => ["high"; "medium"; "low"]
  end.

(** ** The documents as the specification describes them *)

(** The texts of a list, one after the other. *)
Definition text_concat (l : list string) : string :=
  foldr String.append "" l.

Definition finding_line (f : PhysicalExamFinding) : string :=
  "- " +:+ body_part f +:+ ": " +:+ finding f +:+ LF.

Definition exam_block (findings : list PhysicalExamFinding) : string :=
  match findings with
  | [] => ""
  | _ => LF +:+ "Physical Examination:" +:+ LF +:+
         text_concat (map finding_line findings)
  end.

Definition icd_suffix (a : Assessment) : string :=
  match icd_code a with
  | Present (String c code) => " (ICD-10: " +:+ String c code +:+ ")"
  | _ => ""
  end.

Definition severity_suffix (a : Assessment) : string :=
  match severity a with
  | Present sev => " - Severity: " +:+ Severity_token sev
  | _ => ""
  end.

(** Line [n] of the assessment block. *)
Definition assessment_line (n : nat) (a : Assessment) : string :=
  Number_toString n +:+ ". " +:+ diagnosis a +:+
  icd_suffix a +:+ severity_suffix a +:+ LF.

Definition assessment_block (l : list Assessment) : string :=
  LF +:+ "Assessment:" +:+ LF +:+
  text_concat (imap (fun i a => assessment_line (i + 1) a) l).

Definition summary_preamble (s : ClinicalSummary) : string :=
  "Patient: " +:+ patient_name s +:+ LF +:+
  "Date: " +:+ visit_date s +:+ LF +:+ LF +:+
  "Chief Complaint: " +:+ chief_complaint s +:+ LF +:+ LF +:+
  "History of Present Illness:" +:+ LF +:+
  history_of_present_illness s +:+ LF.

Definition titled_block (title : string) (x : maybe string) : string :=
  match x with
  | Present (String c s) => LF +:+ title +:+ LF +:+ String c s +:+ LF
  | _ => ""
  end.

Definition timeline_suffix (a : NextStepAction) : string :=
  match timeline a with
  | Present (String c t) => " (Timeline: " +:+ String c t +:+ ")"
  | _ => ""
  end.

Definition priority_suffix (a : NextStepAction) : string :=
  match priority a with
  | Present p => " [Priority: " +:+ Priority_token p +:+ "]"
  | _ => ""
  end.

Definition ACTION_TYPE_UPPERCASE (a : ActionType) : string :=
  match a with
  | diagnostic => "DIAGNOSTIC"
  | treatment => "TREATMENT"
  | referral => "REFERRAL"
  | follow_up => "FOLLOW-UP"
  | education => "EDUCATION"
  end.

(** Line [n] of the action list. *)
Definition action_line (n : nat) (a : NextStepAction) : string :=
  Number_toString n +:+ ". [" +:+ ACTION_TYPE_UPPERCASE (action_type a) +:+
  "] " +:+ description a +:+ timeline_suffix a +:+ priority_suffix a +:+ LF.

Definition follow_up_line (x : maybe string) : string :=
  match x with
  | Present (String c s) =>
      LF +:+ "Follow-up Appointment: " +:+ String c s +:+ LF
  | _ => ""
  end.

Definition red_flags_block (x : maybe (list string)) : string :=
  match x with
  | Present (flag :: flags) =>
      red_flags_header +:+
      text_concat (map (fun fl => "- " +:+ fl +:+ LF) (flag :: flags))
  | _ => ""
  end.

(** The report on a value, with paths relative to it. *)
Definition issues_of (τ : ZodType) (v : value) : list ZodIssue :=
  fst (_parse τ [] v).

(** ** Frames for the closed examples *)

(** A [JSON.parse] that is known on the frames of a table and rejects any
    other text; the closed examples run the handlers with it. *)
Fixpoint decoder_of (table : list (string * json)) (text : string)
  : option json :=
  match table with
  | [] => None
  | (t, v) :: table' =>
      if bool_decide (t = text) then Some v else decoder_of table' text
  end.

Definition frame (type : string) (field : string) (v : json) : json :=
  JObj (<["type" := JStr type]> (<[field := v]> ∅)).

Definition idle_form : ConsultationForm :=
  {| patientName := "John Doe"; visitDate := Some "2025-11-15";
     notes := "Test notes"; structuredOutput := None; output := "";
     loading := true; streamingBuffer := "" |}.

Definition streaming : session :=
  {| form := idle_form; buffer := ""; effects := [] |}.

(** Payloads of the test suites. *)
Definition obj (l : list (string * json)) : json := JObj (list_to_map l).

Definition valid_payload : json :=
  obj [("clinical_summary",
        obj [("patient_name", JStr "DARIN JESSIE WILLIAMS");
             ("visit_date", JStr "2025-11-15");
             ("chief_complaint", JStr "Headache");
             ("history_of_present_illness", JStr "Patient reports headache.");
             ("vital_signs", JNull);
             ("physical_exam_findings",
              JArr [obj [("body_part", JStr "Head");
                         ("finding", JStr "Tenderness")]]);
             ("assessments",
              JArr [obj [("diagnosis", JStr "Tension headache");
                         ("icd_code", JStr "G44.2");
                         ("severity", JStr "mild")]]);
             ("additional_notes", JStr "Recommend acetaminophen.")]);
       ("next_steps",
        obj [("actions",
              JArr [obj [("action_type", JStr "treatment");
                         ("description", JStr "Take acetaminophen");
                         ("priority", JStr "high");
                         ("timeline", JStr "As needed")]]);
             ("follow_up_appointment", JStr "2025-11-20");
             ("red_flags",
              JArr [JStr "Severe headache"; JStr "Vision changes"])]);
       ("patient_email",
        obj [("greeting", JStr "Hello Darin,");
             ("summary_of_findings", JStr "Signs of tension headache");
             ("treatment_plan", JStr "Use acetaminophen as needed");
             ("patient_instructions",
              JArr [obj [("instruction",
                          JStr "Take acetaminophen when headache occurs");
                         ("category", JStr "medication")]]);
             ("warning_signs", JArr [JStr "Sudden severe headache"]);
             ("next_steps_timeline", JStr "Follow up in 5 days");
             ("closing", JStr "Best regards,");
             ("physician_signature", JStr "Dr. Smith")]);
       ("generation_timestamp", JStr "2025-11-15T12:00:00Z")].

(** [valid_payload] with one more key, which no schema names. *)
Definition extra_payload : json :=
  match valid_payload with
  | JObj props => JObj (<["request_id" := JStr "r-1"]> props)
  | other => other
  end.

(** The payload of the missing-fields test. *)
Definition bad_payload : json :=
  obj [("clinical_summary", obj []);
       ("next_steps", obj []);
       ("patient_email", obj []);
       ("generation_timestamp", JStr "2025-11-15T12:00:00Z")].

(** A payload whose first assessment has severity [Mild]. *)
Definition capitalised_payload : json :=
  obj [("clinical_summary",
        obj [("assessments",
              JArr [obj [("diagnosis", JStr "Migraine");
                         ("severity", JStr "Mild")]])])].

(** [text.includes(part)], the check behind the [toContain] of the tests. *)
Fixpoint includes (text part : string) : bool :=
  String.prefix part text
  || match text with
     | EmptyString => false
     | String _ text' => includes text' part
     end.

(** The inputs of the formatter tests. *)
Definition test_summary : ClinicalSummary :=
  {| patient_name := "John Doe";
     visit_date := "2025-11-15";
     chief_complaint := "Headache";
     history_of_present_illness := "Patient reports headache.";
     vital_signs := Present "BP 120/80";
     physical_exam_findings :=
       [{| body_part := "Head"; finding := "Tenderness" |}];
     assessments :=
       [{| diagnosis := "Tension headache";
           icd_code := Present "G44.2";
           severity := Present mild |}];
     additional_notes := Present "Recommend acetaminophen." |}.

Definition test_nextSteps : NextSteps :=
  {| actions :=
       [{| action_type := treatment;
           description := "Take acetaminophen";
           priority := Present high;
           timeline := Present "As needed" |}];
     follow_up_appointment := Present "2025-11-20";
     red_flags := Present ["Severe headache"; "Vision changes"] |}.

(** The frames of the examples and the [JSON.parse] that knows them. *)
Definition frames : list (string * json) :=
  [("frame-1", frame "chunk" "content" (JStr "Hel"));
   ("frame-2", frame "chunk" "content" (JStr "lo"));
   ("frame-3", frame "chunk" "content" (JStr "H"));
   ("frame-4", frame "chunk" "content" (JStr "ello"));
   ("frame-5", frame "complete" "data" valid_payload);
   ("frame-6", frame "complete" "data" extra_payload);
   ("frame-7", frame "error" "message" (JStr "Something went wrong"));
   ("frame-8", frame "ping" "content" (JStr "keep-alive"));
   ("frame-9", JNull)].

Definition wire (text : string) : MessageEvent := {| data := text |}.

(** ** What the page renders from its state *)

(** [ToBoolean] of a value in a condition. *)
Definition ToBoolean (v : value) : bool :=
  match v with
  | None => false
  | Some JNull => false
  | Some (JBool b) => b
  | Some (JNum lit) => negb (bool_decide (lit = "0"))
  | Some (JStr s) => truthy_string s
  | Some (JArr _) => true
  | Some (JObj _) => true
  end.

(** [loading && streamingBuffer && !structuredOutput]: the streaming
    preview is in the page. *)
Definition showsStreamingPreview (f : ConsultationForm) : bool :=
  loading f && truthy_string (streamingBuffer f)
  && negb (ToBoolean (structuredOutput f)).

(** [structuredOutput && (...)]: the three documents are in the page. *)
Definition showsResults (f : ConsultationForm) : bool :=
  ToBoolean (structuredOutput f).

(** The submit button: [disabled={loading}]. *)
Definition submitDisabled (f : ConsultationForm) : bool := loading f.

(** The calls of [fetchEventSource] among some effects. *)
Definition is_fetchEventSource (e : effect) : bool :=
  match e with
  | fetchEventSource _ _ _ => true
  | _ => false
  end.

Definition fetchEventSource_calls (es : list effect) : list effect :=
  List.filter is_fetchEventSource es.

(** [later st st']: [st'] comes after [st] in one session.  The effects
    only grow, [fetchEventSource] is not called, and what the clinician
    typed, the [output] text and the [streamingBuffer] are as before. *)
Definition later (st st' : session) : Prop :=
  ∃ new, effects st' = effects st ++ new
         ∧ fetchEventSource_calls new = []
         ∧ patientName (form st') = patientName (form st)
         ∧ visitDate (form st') = visitDate (form st)
         ∧ notes (form st') = notes (form st)
         ∧ output (form st') = output (form st)
         ∧ streamingBuffer (form st') = streamingBuffer (form st).

(** The request [handleSubmit] makes with the token [jwt]. *)
Definition consultation_request (jwt : string) (f : ConsultationForm)
  : effect :=
  fetchEventSource "/api/consultation" ("Bearer " +:+ jwt)
    {| body_patient_name := patientName f;
       body_date_of_visit := visitDate f;
       body_notes := notes f |}.

(** More frames for the closed examples: a [complete] frame with the
    payload of the missing-fields test, and a [chunk] frame that has no
    [content]. *)
Definition more_frames : list (string * json) :=
  [("frame-10", frame "complete" "data" bad_payload);
   ("frame-11", JObj (<["type" := JStr "chunk"]> ∅))].

Definition all_frames : list (string * json) := frames ++ more_frames.

(** ** The patient email *)

Record PatientInstruction : Type := {
  instruction : string;
  category : string
}.

Record PatientFollowUpEmail : Type := {
  greeting : string;
  summary_of_findings : string;
  treatment_plan : string;
  patient_instructions : list PatientInstruction;
  warning_signs : list string;
  next_steps_timeline : string;
  closing : string;
  physician_signature : string
}.

Definition warning_signs_header : string :=
  LF +:+ "⚠️ Call us immediately if you experience:" +:+ LF.

(** [formatPatientEmail].  [capitalize s] stands for
    [s.charAt(0).toUpperCase() + s.slice(1)], the runtime's upper-casing
    of the first UTF-16 code unit of free text. *)
Definition formatPatientEmail (capitalize : string → string)
    (email : PatientFollowUpEmail) : string :=
  let output :=
    greeting email +:+ LF +:+
    LF +:+
    summary_of_findings email +:+ LF +:+
    LF +:+
    "What we're doing next:" +:+ LF +:+
    treatment_plan email +:+ LF +:+
    LF +:+
    "What you should do:" +:+ LF in
  let output :=
    forEach (patient_instructions email)
      (fun instruction0 _ output =>
         output +:+ "• [" +:+ capitalize (category instruction0) +:+ "] " +:+
         instruction instruction0 +:+ LF)
      output in
  let output :=
    if (0 <? length (warning_signs email))%nat then
      let output := output +:+ warning_signs_header in
      forEach (warning_signs email)
        (fun warning _ output => output +:+ "• " +:+ warning +:+ LF)
        output
    else output in
  let output :=
    output +:+ LF +:+ "Next Steps:" +:+ LF +:+
    next_steps_timeline email +:+ LF in
  let output :=
    output +:+ LF +:+ closing email +:+ LF +:+ LF +:+
    physician_signature email in
  output.

(** [capitalize] on ASCII text. *)
Definition capitalize_ascii (s : string) : string :=
  match s with
  | EmptyString => EmptyString
  | String c s' => String (upper_ascii c) s'
  end.

(** The input of the email test. *)
Definition test_email : PatientFollowUpEmail :=
  {| greeting := "Hi John,";
     summary_of_findings := "Signs of tension headache";
     treatment_plan := "Use acetaminophen as needed";
     patient_instructions :=
       [{| instruction := "Take acetaminophen when headache occurs";
           category := "medication" |}];
     warning_signs := ["Sudden severe headache"];
     next_steps_timeline := "Follow up in 5 days";
     closing := "Best regards,";
     physician_signature := "Dr. Smith" |}.

(** The email as the specification describes it. *)
Definition instruction_line (capitalize : string → string)
    (i : PatientInstruction) : string :=
  "• [" +:+ capitalize (category i) +:+ "] " +:+ instruction i +:+ LF.

Definition warning_signs_block (warnings : list string) : string :=
  match warnings with
  | [] => ""
  | _ => warning_signs_header +:+
         text_concat (map (fun w => "• " +:+ w +:+ LF) warnings)
  end.

(** ** Optional fields that hold nothing *)

(** [null], [undefined] and the empty string, taken for the same. *)
Definition present_text (x : maybe string) : maybe string :=
  match x with
  | Present (String c s) => Present (String c s)
  | _ => Absent
  end.

Definition present_token {A} (x : maybe A) : maybe A :=
  match x with
  | Present a => Present a
  | _ => Absent
  end.

Definition present_flags (x : maybe (list string)) : maybe (list string) :=
  match x with
  | Present (flag :: flags) => Present (flag :: flags)
  | _ => Absent
  end.

Definition tidy_Assessment (a : Assessment) : Assessment :=
  {| diagnosis := diagnosis a;
     icd_code := present_text (icd_code a);
     severity := present_token (severity a) |}.

Definition tidy_ClinicalSummary (s : ClinicalSummary) : ClinicalSummary :=
  {| patient_name := patient_name s;
     visit_date := visit_date s;
     chief_complaint := chief_complaint s;
     history_of_present_illness := history_of_present_illness s;
     vital_signs := present_text (vital_signs s);
     physical_exam_findings := physical_exam_findings s;
     assessments := map tidy_Assessment (assessments s);
     additional_notes := present_text (additional_notes s) |}.

Definition tidy_NextStepAction (a : NextStepAction) : NextStepAction :=
  {| action_type := action_type a;
     description := description a;
     priority := present_token (priority a);
     timeline := present_text (timeline a) |}.

Definition tidy_NextSteps (n : NextSteps) : NextSteps :=
  {| actions := map tidy_NextStepAction (actions n);
     follow_up_appointment := present_text (follow_up_appointment n);
     red_flags := present_flags (red_flags n) |}.

(** The text ends with a line feed. *)
Definition newline_terminated (s : string) : Prop :=
  ∃ pre, s = pre +:+ LF.

(** Frames whose [content] or [message] is an object with an own
    [toString] key. *)
Definition coercion_frames : list (string * json) :=
  [("frame-12", frame "chunk" "content" (obj [("toString", JStr "x")]));
   ("frame-13", frame "error" "message" (obj [("toString", JStr "x")]))].

(** * Properties *)

(** ** Strings *)

Lemma append_nil_l (s : string) : "" +:+ s = s.
Proof. reflexivity. Qed.

Lemma append_cons (c : ascii) (s t : string) :
  String c s +:+ t = String c (s +:+ t).
Proof. reflexivity. Qed.

Lemma append_nil_r (s : string) : s +:+ "" = s.
Proof.
  induction s as [|c s IH]; [done|]. by rewrite append_cons, IH.
Qed.

Lemma append_assoc (s t u : string) : (s +:+ t) +:+ u = s +:+ (t +:+ u).
Proof.
  induction s as [|c s IH]; [done|]. by rewrite !append_cons, IH.
Qed.

Lemma text_concat_cons (s : string) (l : list string) :
  text_concat (s :: l) = s +:+ text_concat l.
Proof. reflexivity. Qed.

(** ** Lists and maps *)

Lemma forallb_imap_ext {A B} (g : B → bool) (h : A → bool)
    (f : nat → A → B) (l : list A) :
  (∀ i x, g (f i x) = h x) → forallb g (imap f l) = forallb h l.
Proof.
  revert f. induction l as [|x l IH]; intros f Hf; simpl; [done|].
  rewrite Hf. f_equal. apply IH. intros i y. apply Hf.
Qed.

Lemma forallb_map_ext_Forall {A B} (g : B → bool) (h : A → bool)
    (f : A → B) (l : list A) :
  Forall (fun x => g (f x) = h x) l → forallb g (map f l) = forallb h l.
Proof.
  induction 1 as [|x l Hx _ IH]; simpl; [done|]. by rewrite Hx, IH.
Qed.

Lemma forallb_Forall {A} (h : A → bool) (l : list A) :
  forallb h l = true ↔ Forall (fun x => h x = true) l.
Proof.
  induction l as [|x l IH]; simpl.
  - split; [constructor | done].
  - rewrite andb_true_iff, IH, Forall_cons. done.
Qed.

Lemma concat_nil_Forall {A} (ls : list (list A)) :
  concat ls = [] ↔ Forall (fun l => l = []) ls.
Proof.
  induction ls as [|l ls IH]; simpl.
  - split; [constructor | done].
  - rewrite Forall_cons, <- IH. split.
    + intros H. by apply app_eq_nil in H.
    + intros [-> ->]. done.
Qed.

Lemma Forall_imap {A B} (P : B → Prop) (f : nat → A → B) (l : list A) :
  Forall P (imap f l) ↔ ∀ i x, l !! i = Some x → P (f i x).
Proof.
  revert f. induction l as [|x l IH]; intros f; simpl.
  - split; [intros _ i y Hi; by rewrite lookup_nil in Hi | constructor].
  - rewrite Forall_cons, IH. split.
    + intros [H0 HS] [|i] y Hi; simpl in Hi; [by simplify_eq | by apply HS].
    + intros H. split; [by apply (H 0) | intros i y Hi; by apply (H (S i))].
Qed.

(** The object [mergeObjectSync] builds, key by key. *)
Lemma finalObject_foldl pairs : finalObject pairs = foldl assign ∅ pairs.
Proof. reflexivity. Qed.

Lemma foldl_assign_other pairs (acc : gmap string json) (k : string) :
  k ∉ map fst pairs → foldl assign acc pairs !! k = acc !! k.
Proof.
  revert acc. induction pairs as [|pr pairs IH]; intros acc Hk; simpl; [done|].
  simpl in Hk. apply not_elem_of_cons in Hk as [Hne Hk].
  rewrite IH by done. unfold assign.
  destruct (snd (snd pr)) as [[j|]|]; try done.
  by rewrite lookup_insert_ne.
Qed.

Lemma foldl_assign_key pairs (acc : gmap string json) (k : string) r v :
  NoDup (map fst pairs) → (k, r) ∈ pairs → snd r = OK v → acc !! k = None →
  foldl assign acc pairs !! k = v.
Proof.
  revert acc. induction pairs as [|pr pairs IH]; intros acc Hnd Hin Hr Hacc.
  - by apply elem_of_nil in Hin.
  - simpl in *. apply NoDup_cons in Hnd as [Hfresh Hnd].
    apply elem_of_cons in Hin as [<-|Hin].
    + rewrite foldl_assign_other by done. unfold assign. simpl. rewrite Hr.
      destruct v as [j|]; [by rewrite lookup_insert_eq | done].
    + assert (fst pr ≠ k) as Hne.
      { intros <-. apply Hfresh. apply list_elem_of_fmap.
        by exists (fst pr, r). }
      apply IH; try done. unfold assign.
      destruct (snd (snd pr)) as [[j|]|]; try done.
      by rewrite lookup_insert_ne.
Qed.

Lemma finalObject_dom pairs :
  dom (finalObject pairs) ⊆ list_to_set (map fst pairs).
Proof.
  intros k Hk. apply elem_of_dom in Hk as [j Hj].
  apply elem_of_list_to_set.
  destruct (decide (k ∈ map fst pairs)) as [|Hn]; [done|].
  rewrite finalObject_foldl, foldl_assign_other in Hj by done.
  by rewrite lookup_empty in Hj.
Qed.

(** ** The validator accepts exactly the conforming payloads *)

Lemma parse_isValid τ :
  ∀ path v, isValid (snd (_parse τ path v)) = conforms τ v.
Proof.
  induction τ as [|values|element IH|shape IH|inner IH|inner IH]
    using ZodType_shape_ind; intros path v; simpl.
  - by destruct v as [[]|].
  - destruct v as [[]|]; try done. by case_bool_decide.
  - destruct v as [[| | | |items|]|]; try done. simpl.
    rewrite (forallb_imap_ext _ (fun item => conforms element (Some item))).
    + by destruct (forallb _ items).
    + intros i x. apply IH.
  - destruct v as [[| | | | |props]|]; try done. simpl.
    rewrite (forallb_map_ext_Forall _
               (fun kv => conforms (snd kv) (props !! fst kv))).
    + by destruct (forallb _ shape).
    + eapply Forall_impl; [exact IH|]. intros kv Hkv. apply Hkv.
  - destruct v; [apply IH | done].
  - destruct v as [[]|]; try apply IH. done.
Qed.

Lemma parse_issues_nil τ :
  ∀ path v, fst (_parse τ path v) = [] ↔ conforms τ v = true.
Proof.
  induction τ as [|values|element IH|shape IH|inner IH|inner IH]
    using ZodType_shape_ind; intros path v; simpl.
  - by destruct v as [[]|].
  - destruct v as [[]|]; try done. by case_bool_decide.
  - destruct v as [[| | | |items|]|]; try done. simpl.
    rewrite concat_nil_Forall, Forall_fmap, Forall_imap, forallb_Forall,
      Forall_lookup.
    split; intros H i x Hi.
    + apply (IH (path ++ [Index i])). by apply (H i x).
    + simpl. apply IH. by apply (H i x).
  - destruct v as [[| | | | |props]|]; try done. simpl.
    rewrite concat_nil_Forall, !Forall_fmap, forallb_Forall, !Forall_forall.
    rewrite Forall_forall in IH.
    split; intros H kv Hkv; specialize (H kv Hkv); simpl in *;
      by apply (IH kv Hkv (path ++ [Key (fst kv)])).
  - destruct v; [apply IH | done].
  - destruct v as [[]|]; try apply IH. done.
Qed.

(** A value that is there never parses to [undefined]. *)
Lemma _parse_defined τ :
  ∀ path j out, snd (_parse τ path (Some j)) = OK out → is_Some out.
Proof.
  induction τ as [|values|element IH|shape IH|inner IH|inner IH]
    using ZodType_shape_ind; intros path j out; simpl.
  - destruct j; simpl; intros Hr; simplify_eq; eauto.
  - destruct j; simpl; try done. case_bool_decide; simpl; intros Hr;
      simplify_eq; eauto.
  - destruct j; simpl; try done.
    destruct (forallb _ _); intros Hr; simplify_eq; eauto.
  - destruct j; simpl; try done.
    destruct (forallb _ _); intros Hr; simplify_eq; eauto.
  - apply IH.
  - destruct j; try apply IH. intros Hr; simpl in Hr; simplify_eq; eauto.
Qed.

Lemma omap_imap_outputs (Q : json → json → Prop)
    (f : nat → json → list ZodIssue * ParseReturn) (items : list json) :
  (∀ i x, items !! i = Some x → ∃ j, snd (f i x) = OK (Some j) ∧ Q x j) →
  Forall2 Q items (omap element_output (imap f items)).
Proof.
  revert f. induction items as [|x items IH]; intros f Hf; simpl.
  - constructor.
  - destruct (Hf 0 x eq_refl) as (j & Hj & HQ).
    unfold element_output at 1. rewrite Hj. constructor; [done|].
    apply IH. intros i y Hi. by apply (Hf (S i)).
Qed.

Lemma shape_keys_of_pairs {B} (g : string * ZodType → B)
    (shape : list (string * ZodType)) :
  map fst (map (fun kv => (fst kv, g kv)) shape) = map fst shape.
Proof. induction shape as [|kv shape IH]; simpl; [done|]. by rewrite IH. Qed.

Lemma no_extra_undefined τ : no_extra τ undefined = true.
Proof. induction τ using ZodType_shape_ind; simpl; done. Qed.

Lemma no_extra_null τ : no_extra τ (Some JNull) = true.
Proof. induction τ using ZodType_shape_ind; simpl; done. Qed.

(** On a conforming payload the validator reports nothing and returns a
    conforming value without unrecognized keys; that value is the payload
    itself when the payload had none. *)
Lemma parse_output τ :
  wf_schema τ = true →
  ∀ path v, conforms τ v = true →
    ∃ out, snd (_parse τ path v) = OK out
           ∧ conforms τ out = true
           ∧ no_extra τ out = true
           ∧ (no_extra τ v = true → out = v).
Proof.
  induction τ as [|values|element IH|shape IH|inner IH|inner IH]
    using ZodType_shape_ind; intros Hwf path v Hv; simpl in *.
  - destruct v as [[]|]; try done. eauto.
  - destruct v as [[]|]; try done. rewrite Hv. simpl. eauto 6.
  - destruct v as [[| | | |items|]|]; try done. simpl.
    rewrite (forallb_imap_ext _ (fun item => conforms element (Some item)))
      by (intros; apply parse_isValid).
    rewrite Hv. eexists. split; [reflexivity|].
    assert (Forall2 (fun x j => conforms element (Some j) = true
                                ∧ no_extra element (Some j) = true
                                ∧ (no_extra element (Some x) = true → j = x))
              items
              (omap element_output
                 (imap (fun i item =>
                          _parse element (path ++ [Index i]) (Some item))
                       items))) as Houts.
    { apply omap_imap_outputs. intros i x Hi.
      apply forallb_Forall in Hv. rewrite Forall_lookup in Hv.
      destruct (IH Hwf (path ++ [Index i]) (Some x) (Hv i x Hi))
        as (out & Hout & Hc & Hn & Heq).
      destruct (_parse_defined _ _ _ _ Hout) as [j ->]. exists j.
      repeat split; try done. intros Hx. specialize (Heq Hx). by simplify_eq. }
    revert Houts.
    generalize (omap element_output
                  (imap (fun i item =>
                           _parse element (path ++ [Index i]) (Some item))
                        items)).
    intros outs Houts. clear Hv. simpl. repeat split.
    + apply forallb_Forall. induction Houts as [|???? (?&?&?)]; by constructor.
    + apply forallb_Forall. induction Houts as [|???? (?&?&?)]; by constructor.
    + intros Hn. apply forallb_Forall in Hn. do 2 f_equal.
      induction Houts as [|x j items' outs' (?&?&Hxj) _ IH']; [done|].
      apply Forall_cons in Hn as [Hx Hn]. rewrite (Hxj Hx). f_equal.
      by apply IH'.
  - destruct v as [[| | | | |props]|]; try done. simpl.
    apply andb_true_iff in Hwf as [Hnd Hwf]. apply bool_decide_eq_true in Hnd.
    apply forallb_Forall in Hwf, Hv.
    rewrite Forall_forall in IH, Hwf, Hv.
    rewrite (forallb_map_ext_Forall _
               (fun kv => conforms (snd kv) (props !! fst kv)))
      by (apply Forall_forall; intros; apply parse_isValid).
    replace (forallb _ shape) with true
      by (symmetry; apply forallb_Forall, Forall_forall, Hv).
    set (pairs := map (fun kv => (fst kv,
                         _parse (snd kv) (path ++ [Key (fst kv)])
                                (props !! fst kv))) shape).
    assert (map fst pairs = map fst shape) as Hkeys
      by apply shape_keys_of_pairs.
    eexists. split; [reflexivity|].
    assert (∀ kv, kv ∈ shape →
              ∃ out, finalObject pairs !! fst kv = out
                     ∧ conforms (snd kv) out = true
                     ∧ no_extra (snd kv) out = true
                     ∧ (no_extra (snd kv) (props !! fst kv) = true
                        → out = props !! fst kv)) as Hfields.
    { intros kv Hkv.
      destruct (IH kv Hkv (Hwf kv Hkv) (path ++ [Key (fst kv)])
                  (props !! fst kv) (Hv kv Hkv))
        as (out & Hout & Hc & Hn & Heq).
      exists out. repeat split; try done.
      rewrite finalObject_foldl.
      eapply foldl_assign_key; [by rewrite Hkeys| |exact Hout|done].
      unfold pairs. apply list_elem_of_fmap. by exists kv. }
    simpl. repeat split.
    + apply forallb_Forall, Forall_forall. intros kv Hkv.
      by destruct (Hfields kv Hkv) as (out & -> & ? & ? & ?).
    + apply andb_true_iff. split.
      * apply bool_decide_eq_true. rewrite <- Hkeys. apply finalObject_dom.
      * apply forallb_Forall, Forall_forall. intros kv Hkv.
        by destruct (Hfields kv Hkv) as (out & -> & ? & ? & ?).
    + intros Hn. apply andb_true_iff in Hn as [Hdom Hn].
      apply bool_decide_eq_true in Hdom. apply forallb_Forall in Hn.
      rewrite Forall_forall in Hn. do 2 f_equal. apply map_eq. intros k.
      destruct (decide (k ∈ map fst shape)) as [Hk|Hk].
      * apply list_elem_of_fmap in Hk as (kv & -> & Hkv).
        destruct (Hfields kv Hkv) as (out & -> & ? & ? & Heq).
        by apply Heq, Hn.
      * rewrite finalObject_foldl, foldl_assign_other by by rewrite Hkeys.
        rewrite lookup_empty. symmetry. apply not_elem_of_dom.
        intros Hin. apply Hk. apply Hdom in Hin.
        by apply elem_of_list_to_set in Hin.
  - destruct v as [j|].
    + destruct (IH Hwf path (Some j) Hv) as (out & Hout & Hc & Hn & Heq).
      exists out. repeat split; try done. by destruct out.
    + exists undefined. repeat split; try done. apply no_extra_undefined.
  - destruct v as [[| | | | |]|];
      try (destruct (IH Hwf path _ Hv) as (out & Hout & Hc & Hn & Heq);
           exists out; repeat split; try done; by destruct out as [[]|]).
    exists (Some JNull). repeat split; try done. apply no_extra_null.
Qed.

(** What the validator returns on a conforming payload is the payload
    without its unrecognized keys. *)
Lemma shape_lookup_None k shape :
  k ∉ map fst shape → shape_lookup k shape = None.
Proof.
  induction shape as [|kv shape IH]; simpl; [done|].
  intros Hk. apply not_elem_of_cons in Hk as [Hne Hk].
  rewrite bool_decide_eq_false_2 by congruence. by apply IH.
Qed.

Lemma shape_lookup_Some k shape τ :
  shape_lookup k shape = Some τ → (k, τ) ∈ shape.
Proof.
  induction shape as [|kv shape IH]; simpl; [done|].
  case_bool_decide as Hk.
  - intros [= <-]. subst k. destruct kv. apply list_elem_of_here.
  - intros Hl. apply list_elem_of_further. by apply IH.
Qed.

Lemma recognised_object shape props :
  recognised (ZodObject shape) (JObj props) =
  JObj (map_imap (fun k j => (fun τ => recognised τ j) <$> shape_lookup k shape)
                 props).
Proof.
  simpl. f_equal. apply map_eq. intros k. rewrite !map_lookup_imap.
  destruct (props !! k) as [j|]; simpl; [|done].
  induction shape as [|kv shape IH]; simpl; [done|].
  case_bool_decide; [done|]. apply IH.
Qed.

Lemma recognised_null τ : recognised τ JNull = JNull.
Proof. induction τ using ZodType_shape_ind; simpl; done. Qed.

Lemma parse_output_recognised τ :
  wf_schema τ = true →
  ∀ path v, conforms τ v = true →
    snd (_parse τ path v) = OK (recognised τ <$> v).
Proof.
  induction τ as [|values|element IH|shape IH|inner IH|inner IH]
    using ZodType_shape_ind; intros Hwf path v Hv.
  - by destruct v as [[]|].
  - simpl in *. destruct v as [[]|]; try done. by rewrite Hv.
  - simpl in Hv, Hwf. destruct v as [[| | | |items|]|]; try done.
    cbn [_parse mergeArray snd].
    rewrite (forallb_imap_ext _ (fun item => conforms element (Some item)))
      by (intros; apply parse_isValid).
    rewrite Hv.
    change (recognised (ZodArray element) <$> Some (JArr items))
      with (Some (JArr (map (recognised element) items))).
    do 3 f_equal.
    apply forallb_Forall in Hv. rewrite Forall_lookup in Hv.
    assert (Forall2 (fun x j => j = recognised element x) items
              (omap element_output
                 (imap (fun i item =>
                          _parse element (path ++ [Index i]) (Some item))
                       items))) as Houts.
    { apply omap_imap_outputs. intros i x Hi. eexists. split; [|reflexivity].
      by rewrite (IH Hwf _ (Some x) (Hv i x Hi)). }
    clear Hv. induction Houts as [|x j ? ? -> _ IH']; simpl; [done|].
    by rewrite IH'.
  - simpl in Hv. destruct v as [[| | | | |props]|]; try done.
    change (recognised (ZodObject shape) <$> Some (JObj props))
      with (Some (recognised (ZodObject shape) (JObj props))).
    rewrite recognised_object.
    cbn [_parse mergeObjectSync snd].
    simpl in Hwf. apply andb_true_iff in Hwf as [Hnd Hwf].
    apply bool_decide_eq_true in Hnd.
    apply forallb_Forall in Hwf, Hv. rewrite Forall_forall in IH, Hwf, Hv.
    rewrite (forallb_map_ext_Forall _
               (fun kv => conforms (snd kv) (props !! fst kv)))
      by (apply Forall_forall; intros; apply parse_isValid).
    replace (forallb _ shape) with true
      by (symmetry; apply forallb_Forall, Forall_forall, Hv).
    do 3 f_equal. apply map_eq. intros k. rewrite map_lookup_imap.
    set (pairs := map (fun kv => (fst kv,
                         _parse (snd kv) (path ++ [Key (fst kv)])
                                (props !! fst kv))) shape).
    assert (map fst pairs = map fst shape) as Hkeys
      by apply shape_keys_of_pairs.
    destruct (shape_lookup k shape) as [τ|] eqn:Hk.
    + apply shape_lookup_Some in Hk.
      rewrite finalObject_foldl.
      rewrite (foldl_assign_key pairs ∅ k
                 (_parse τ (path ++ [Key k]) (props !! k))
                 (recognised τ <$> props !! k)).
      * by destruct (props !! k).
      * by rewrite Hkeys.
      * unfold pairs. apply list_elem_of_fmap. by exists (k, τ).
      * apply (IH _ Hk (Hwf _ Hk)). apply (Hv _ Hk).
      * done.
    + rewrite finalObject_foldl, foldl_assign_other.
      * rewrite lookup_empty. by destruct (props !! k).
      * rewrite Hkeys. intros Hin.
        apply list_elem_of_fmap in Hin as ([k' τ] & -> & Hin). simpl in Hk.
        assert (is_Some (shape_lookup k' shape)) as [? ?]; [|congruence].
        clear -Hin. induction shape as [|kv shape IH]; simpl.
        { by apply elem_of_nil in Hin. }
        case_bool_decide; [eauto|].
        apply elem_of_cons in Hin as [<-|Hin]; [done|]. by apply IH.
  - simpl in *. destruct v as [j|]; [by apply IH | done].
  - simpl in *. destruct v as [[| | | | |]|]; try (by apply IH); try done.
    simpl. by rewrite recognised_null.
Qed.

(** ** The report has one entry for each violation *)

Lemma with_prefix_app pre q i :
  with_prefix pre (with_prefix q i) = with_prefix (pre ++ q) i.
Proof. destruct i; simpl; by rewrite app_assoc. Qed.

Lemma issue_path_with_prefix pre i :
  issue_path (with_prefix pre i) = pre ++ issue_path i.
Proof. by destruct i. Qed.

Lemma concat_imap_ext {A B} (f g : nat → A → list B) (l : list A) :
  (∀ i x, l !! i = Some x → f i x = g i x) →
  concat (imap f l) = concat (imap g l).
Proof. intros H. f_equal. by apply imap_ext. Qed.

Lemma map_concat_imap {A B C} (h : B → C) (f : nat → A → list B) (l : list A) :
  map h (concat (imap f l)) = concat (imap (fun i x => map h (f i x)) l).
Proof.
  revert f. induction l as [|x l IH]; intros f; simpl; [done|].
  by rewrite map_app, IH.
Qed.

Lemma map_concat_map {A B C} (h : B → C) (f : A → list B) (l : list A) :
  map h (concat (map f l)) = concat (map (fun x => map h (f x)) l).
Proof.
  induction l as [|x l IH]; simpl; [done|]. by rewrite map_app, IH.
Qed.

Lemma list_map_imap {A B C} (h : B → C) (f : nat → A → B) (l : list A) :
  map h (imap f l) = imap (fun i x => h (f i x)) l.
Proof.
  revert f. induction l as [|x l IH]; intros f; simpl; [done|].
  by rewrite IH.
Qed.

(** Validating under a path only prefixes the paths of the report. *)
Lemma parse_fst_prefix τ :
  ∀ path v, fst (_parse τ path v) = map (with_prefix path) (issues_of τ v).
Proof.
  unfold issues_of.
  induction τ as [|values|element IH|shape IH|inner IH|inner IH]
    using ZodType_shape_ind; intros path v; simpl.
  - destruct v as [[]|]; simpl; by rewrite ?app_nil_r.
  - destruct v as [[]|]; simpl; rewrite ?app_nil_r; try done.
    case_bool_decide; simpl; by rewrite ?app_nil_r.
  - destruct v as [[| | | |items|]|]; simpl; rewrite ?app_nil_r; try done.
    rewrite !list_map_imap, map_concat_imap. apply concat_imap_ext.
    intros i x _. simpl.
    rewrite (IH (path ++ [Index i])), (IH [Index i]), map_map.
    apply map_ext. intros y. by rewrite with_prefix_app.
  - destruct v as [[| | | | |props]|]; simpl; rewrite ?app_nil_r; try done.
    rewrite !map_map, map_concat_map.
    f_equal. apply map_ext_Forall. eapply Forall_impl; [exact IH|].
    intros kv Hkv. simpl.
    rewrite (Hkv (path ++ [Key (fst kv)])), (Hkv [Key (fst kv)]), map_map.
    apply map_ext. intros y. by rewrite with_prefix_app.
  - destruct v; [apply IH | done].
  - destruct v as [[]|]; try apply IH. done.
Qed.

Lemma issues_of_array element items :
  issues_of (ZodArray element) (Some (JArr items)) =
  concat (imap (fun i x => map (with_prefix [Index i])
                             (issues_of element (Some x))) items).
Proof.
  unfold issues_of at 1. simpl. rewrite list_map_imap.
  apply concat_imap_ext. intros i x _. simpl. apply parse_fst_prefix.
Qed.

Lemma issues_of_object shape props :
  issues_of (ZodObject shape) (Some (JObj props)) =
  concat (map (fun kv => map (with_prefix [Key (fst kv)])
                           (issues_of (snd kv) (props !! fst kv))) shape).
Proof.
  unfold issues_of at 1. simpl. rewrite map_map. f_equal.
  apply map_ext. intros kv. simpl. apply parse_fst_prefix.
Qed.

Lemma count_at_nil p : count_at p [] = 0.
Proof. reflexivity. Qed.

Lemma count_at_app p l1 l2 :
  count_at p (l1 ++ l2) = count_at p l1 + count_at p l2.
Proof. unfold count_at. by rewrite filter_app, length_app. Qed.

Lemma count_at_prefix_head seg seg' p l :
  count_at (seg :: p) (map (with_prefix [seg']) l) =
  if decide (seg' = seg) then count_at p l else 0.
Proof.
  unfold count_at. induction l as [|i l IH]; simpl.
  - by case_decide.
  - rewrite !filter_cons, issue_path_with_prefix. simpl.
    destruct (decide (seg' = seg)) as [->|Hne].
    + destruct (decide (issue_path i = p)) as [->|Hp].
      * rewrite decide_True by done. simpl. by rewrite IH.
      * rewrite decide_False by congruence. done.
    + rewrite decide_False by congruence. done.
Qed.

Lemma count_at_prefix_root seg l :
  count_at [] (map (with_prefix [seg]) l) = 0.
Proof.
  unfold count_at. induction l as [|i l IH]; simpl; [done|].
  rewrite filter_cons.
  destruct (decide _) as [Hp|_]; [|done].
  by rewrite issue_path_with_prefix in Hp.
Qed.

Lemma count_at_concat_zero q (ls : list (list ZodIssue)) :
  Forall (fun l => count_at q l = 0) ls → count_at q (concat ls) = 0.
Proof.
  induction 1 as [|l ls Hl _ IH]; simpl; [done|].
  by rewrite count_at_app, Hl, IH.
Qed.

Lemma count_at_array_from (I : json → list ZodIssue) (items : list json)
    (i : nat) (p : list PathSeg) :
  ∀ n,
    count_at (Index i :: p)
      (concat (imap (fun j x => map (with_prefix [Index (n + j)]) (I x))
                    items)) =
    if decide (n ≤ i)%nat
    then match items !! (i - n) with
         | Some x => count_at p (I x)
         | None => 0
         end
    else 0.
Proof.
  induction items as [|x items IH]; intros n; simpl.
  - rewrite count_at_nil. by case_decide.
  - rewrite count_at_app, count_at_prefix_head.
    rewrite (concat_imap_ext _
               (fun j y => map (with_prefix [Index (S n + j)]) (I y)))
      by (intros j y _; simpl; by rewrite Nat.add_succ_r).
    rewrite IH.
    destruct (decide (Index (n + 0) = Index i)) as [Heq|Hne].
    + assert (i = n) as -> by (simplify_eq; lia).
      rewrite decide_False by lia. rewrite decide_True by lia.
      replace (n - n) with 0 by lia. simpl. lia.
    + assert (i ≠ n) by (intros ->; apply Hne; f_equal; lia).
      destruct (decide (n ≤ i)%nat) as [Hle|Hgt].
      * rewrite decide_True by lia.
        replace (i - n) with (S (i - S n)) by lia. done.
      * rewrite decide_False by lia. done.
Qed.

Lemma count_at_array (I : json → list ZodIssue) (items : list json)
    (i : nat) (p : list PathSeg) :
  count_at (Index i :: p)
    (concat (imap (fun j x => map (with_prefix [Index j]) (I x)) items)) =
  match items !! i with
  | Some x => count_at p (I x)
  | None => 0
  end.
Proof.
  pose proof (count_at_array_from I items i p 0) as H. simpl in H.
  rewrite H. by rewrite Nat.sub_0_r.
Qed.

Lemma count_at_object (I : string * ZodType → list ZodIssue)
    (shape : list (string * ZodType)) (k : string) (p : list PathSeg) :
  NoDup (map fst shape) →
  count_at (Key k :: p)
    (concat (map (fun kv => map (with_prefix [Key (fst kv)]) (I kv)) shape)) =
  match shape_lookup k shape with
  | Some τ => count_at p (I (k, τ))
  | None => 0
  end.
Proof.
  induction shape as [|kv shape IH]; simpl; intros Hnd; [done|].
  apply NoDup_cons in Hnd as [Hfresh Hnd].
  rewrite count_at_app, count_at_prefix_head, IH by done.
  case_bool_decide as Hk.
  - subst k. rewrite decide_True by done.
    rewrite shape_lookup_None by done. destruct kv. simpl. lia.
  - rewrite decide_False by congruence. done.
Qed.

Lemma violation_at_optional inner j p :
  violation_at (ZodOptional inner) (Some j) p = violation_at inner (Some j) p.
Proof. unfold violation_at. by destruct p. Qed.

Lemma violation_at_nullable inner v p :
  v ≠ Some JNull →
  violation_at (ZodNullable inner) v p = violation_at inner v p.
Proof.
  intros Hv. unfold violation_at. destruct p; [|done]. simpl.
  by destruct v as [[]|].
Qed.

(** Below a node that is not the object or array the schema asks for, the
    walk finds nothing. *)
Lemma violation_at_leaf τ v seg p :
  match unwrap τ, v with
  | ZodObject _, Some (JObj _) => False
  | ZodArray _, Some (JArr _) => False
  | _, _ => True
  end →
  violation_at τ v (seg :: p) = false.
Proof.
  unfold violation_at. simpl.
  destruct (unwrap τ), v as [[]|], seg; done.
Qed.

(** The number of entries at a path is one when the path ends at a
    violation and zero otherwise. *)
Lemma count_issues_of τ :
  wf_schema τ = true →
  ∀ v p, count_at p (issues_of τ v) = if violation_at τ v p then 1 else 0.
Proof.
  induction τ as [|values|element IH|shape IH|inner IH|inner IH]
    using ZodType_shape_ind; intros Hwf v p.
  - destruct p as [|seg p].
    + by destruct v as [[]|].
    + rewrite violation_at_leaf by done. by destruct v as [[]|].
  - destruct p as [|seg p].
    + destruct v as [[]|]; try done.
      unfold issues_of, violation_at. simpl. by case_bool_decide.
    + rewrite violation_at_leaf by done.
      destruct v as [[]|]; try done.
      unfold issues_of. simpl. by case_bool_decide.
  - destruct v as [[| | | |items|]|];
      try (destruct p; [done | by rewrite violation_at_leaf]).
    rewrite issues_of_array. destruct p as [|[k|i] p].
    + apply count_at_concat_zero, Forall_imap. intros i x _.
      apply count_at_prefix_root.
    + unfold violation_at. simpl.
      apply count_at_concat_zero, Forall_imap. intros i x _.
      rewrite count_at_prefix_head. by rewrite decide_False.
    + rewrite count_at_array. unfold violation_at. simpl.
      destruct (items !! i) as [x|]; [|done].
      apply (IH Hwf (Some x) p).
  - destruct v as [[| | | | |props]|];
      try (destruct p; [done | by rewrite violation_at_leaf]).
    simpl in Hwf. apply andb_true_iff in Hwf as [Hnd Hwf].
    apply bool_decide_eq_true in Hnd. apply forallb_Forall in Hwf.
    rewrite Forall_forall in IH, Hwf.
    rewrite issues_of_object. destruct p as [|[k|i] p].
    + apply count_at_concat_zero, Forall_fmap, Forall_forall. intros kv _.
      apply count_at_prefix_root.
    + rewrite (count_at_object
                 (fun kv => issues_of (snd kv) (props !! fst kv))) by done.
      unfold violation_at. simpl.
      destruct (shape_lookup k shape) as [τ|] eqn:Hk; [|done].
      apply shape_lookup_Some in Hk.
      apply (IH _ Hk (Hwf _ Hk) (props !! k) p).
    + unfold violation_at. simpl.
      apply count_at_concat_zero, Forall_fmap, Forall_forall. intros kv _.
      simpl. rewrite count_at_prefix_head. by rewrite decide_False.
  - destruct v as [j|].
    + rewrite violation_at_optional. apply (IH Hwf).
    + destruct p; [done|].
      rewrite violation_at_leaf by (simpl; by destruct (unwrap inner)). done.
  - destruct v as [[| | | | |]|];
      try (rewrite violation_at_nullable by done; apply (IH Hwf)).
    destruct p; [done|].
    rewrite violation_at_leaf by (simpl; by destruct (unwrap inner)). done.
Qed.

Lemma wf_ConsultationSummaryResponseSchema :
  wf_schema ConsultationSummaryResponseSchema = true.
Proof. vm_compute. reflexivity. Qed.

Lemma parse_invalid_issues τ path v :
  snd (_parse τ path v) = INVALID ↔ fst (_parse τ path v) ≠ [].
Proof.
  rewrite (parse_issues_nil τ path v), <- (parse_isValid τ path v).
  destruct (snd (_parse τ path v)); simpl; split; done.
Qed.

(** [safeParse] in terms of the payload shape. *)
Lemma safeParse_conforms τ v :
  wf_schema τ = true → conforms τ v = true →
  safeParse τ v = SafeParseSuccess (recognised τ <$> v)
  ∧ conforms τ (recognised τ <$> v) = true
  ∧ no_extra τ (recognised τ <$> v) = true
  ∧ (no_extra τ v = true → recognised τ <$> v = v).
Proof.
  intros Hwf Hv. destruct (parse_output τ Hwf [] v Hv) as (out & Hout & H).
  rewrite (parse_output_recognised τ Hwf [] v Hv) in Hout.
  injection Hout as <-. split; [|done]. unfold safeParse.
  pose proof (parse_output_recognised τ Hwf [] v Hv) as Hr.
  destruct (_parse τ [] v) as [issues r]. simpl in Hr. by subst r.
Qed.

Lemma safeParse_error τ v issues :
  safeParse τ v = SafeParseError issues →
  issues = issues_of τ v ∧ issues ≠ [] ∧ conforms τ v = false.
Proof.
  unfold safeParse, issues_of.
  pose proof (parse_invalid_issues τ [] v) as Hinv.
  pose proof (parse_isValid τ [] v) as Hval.
  destruct (_parse τ [] v) as [iss r]. simpl in *.
  destruct r; [done|]. intros [= <-]. repeat split; try done.
  by apply Hinv.
Qed.

Lemma safeParse_issues τ v :
  issues_of τ v ≠ [] → safeParse τ v = SafeParseError (issues_of τ v).
Proof.
  unfold safeParse, issues_of. intros Hne.
  apply parse_invalid_issues in Hne.
  destruct (_parse τ [] v) as [iss r]. simpl in *. by subst r.
Qed.

Lemma locate_of_get_path p :
  ∀ τ τ' v x,
    schema_at p τ = Some τ' → get_path p v = Some x →
    locate p τ v = Some (τ', Some x).
Proof.
  induction p as [|seg p IH]; intros τ τ' v x Hs Hg; simpl in *.
  - by simplify_eq.
  - destruct seg as [k|i], (unwrap τ) as [| |element|shape| |]; try done.
    + destruct v as [[| | | | |props]|]; try done.
      destruct (shape_lookup k shape) as [τ''|]; [|done]. by apply IH.
    + destruct v as [[| | | |items|]|]; try done.
      destruct (items !! i) as [item|] eqn:Hi.
      * by apply IH.
      * by destruct p as [|[]].
Qed.

Lemma count_at_pos_ne p (issues : list ZodIssue) :
  count_at p issues = 1 → issues ≠ [].
Proof. by intros H ->. Qed.

(** ** Messages *)

Ltac run_handler :=
  unfold onmessage, call, try_catch, onmessage_try, JSON_parse_or_throw,
    mbind, block_bind, eval, update.

Section Stream_properties.

Variable JSON_parse : string → option json.

Lemma onmessage_chunk ev st content text :
  envelope JSON_parse ev "chunk" "content" content →
  ToString_value content = Normal text →
  onmessage JSON_parse ev st =
  Normal (with_buffer (buffer st +:+ text) st).
Proof.
  intros (props & Hp & Hty & Hc) Htext. run_handler.
  rewrite Hp. simpl. rewrite Hty. simpl. by rewrite Hc, Htext.
Qed.

Lemma onmessage_complete ev st payload :
  envelope JSON_parse ev "complete" "data" payload →
  onmessage JSON_parse ev st =
  let st := emit (console_log "Stream complete, received validated data"
                              None) st in
  match safeParse ConsultationSummaryResponseSchema payload with
  | SafeParseSuccess result_data =>
      Normal (with_form (setLoading false)
                (with_form (setStructuredOutput result_data) st))
  | SafeParseError issues =>
      Normal (with_form (setLoading false)
                (emit (alert "Failed to validate response")
                   (emit (console_error "Validation failed:"
                                        (arg_ZodError issues)) st)))
  end.
Proof.
  intros (props & Hp & Hty & Hc). run_handler.
  rewrite Hp. simpl. rewrite Hty. simpl.
  rewrite Hc. by destruct (safeParse _ _).
Qed.

Lemma onmessage_error ev st message text :
  envelope JSON_parse ev "error" "message" message →
  ToString_value message = Normal text →
  onmessage JSON_parse ev st =
  Normal (with_form (setLoading false)
            (emit (alert ("Error: " +:+ text))
               (emit (console_error "Backend error:" (arg_value message))
                     st))).
Proof.
  intros (props & Hp & Hty & Hc) Htext. run_handler.
  rewrite Hp. simpl. rewrite Hty. simpl. by rewrite Hc, Htext.
Qed.

Lemma strict_equals_false (type : value) (lit : string) :
  (∀ t, type = Some (JStr t) → t ≠ lit) → strict_equals type lit = false.
Proof.
  intros H. destruct type as [[| | |t| |]|]; try done. simpl.
  apply bool_decide_eq_false_2. by apply H.
Qed.

(** Chunks only grow the buffer, in arrival order. *)
Lemma deliver_chunks evs : ∀ cs st,
  Forall2 (fun ev c =>
             envelope JSON_parse ev "chunk" "content" (Some (JStr c)))
          evs cs →
  deliver JSON_parse (map Message evs) st =
  Normal (with_buffer (buffer st +:+ text_concat cs) st).
Proof.
  induction evs as [|ev evs IH]; intros cs st Hcs.
  - apply Forall2_nil_inv_l in Hcs as ->. simpl.
    rewrite append_nil_r. by destruct st.
  - apply Forall2_cons_inv_l in Hcs as (c & cs' & Hc & Hcs & ->). simpl.
    rewrite (onmessage_chunk ev st _ c Hc eq_refl). simpl.
    rewrite (IH cs' _ Hcs). simpl. unfold with_buffer. simpl.
    by rewrite append_assoc.
Qed.

(** With a token the connection is requested before anything else. *)
Lemma handleSubmit_connects jwt events f before :
  truthy_string jwt = true →
  handleSubmit JSON_parse (Some jwt) events f before =
  deliver JSON_parse events
    {| form := setLoading true (setOutput "" f);
       buffer := "";
       effects :=
         before ++ [fetchEventSource "/api/consultation" ("Bearer " +:+ jwt)
                    {| body_patient_name := patientName f;
                       body_date_of_visit := visitDate f;
                       body_notes := notes f |}] |}.
Proof. intros Hjwt. unfold handleSubmit. by rewrite Hjwt. Qed.

(** C1 (as amended).  A [complete] envelope whose payload has the shape of
    the data model passes validation: no failure is reported, loading
    ends, and the structured output is the payload without its
    unrecognized keys, which conforms to the shape; it is the input payload
    itself (deep equality) whenever the input carries no unrecognized
    key. *)
Theorem complete_conforming_payload_is_done ev st payload :
  envelope JSON_parse ev "complete" "data" payload →
  conforms ConsultationSummaryResponseSchema payload = true →
  ∃ st' out,
    onmessage JSON_parse ev st = Normal st'
    ∧ structuredOutput (form st') = out
    ∧ loading (form st') = false
    ∧ effects st' =
        effects st ++ [console_log "Stream complete, received validated data"
                                   None]
    ∧ out = (recognised ConsultationSummaryResponseSchema <$> payload)
    ∧ conforms ConsultationSummaryResponseSchema out = true
    ∧ no_extra ConsultationSummaryResponseSchema out = true
    ∧ (no_extra ConsultationSummaryResponseSchema payload = true
       → out = payload).
Proof.
  intros Henv Hv. rewrite (onmessage_complete ev st payload Henv).
  destruct (safeParse_conforms _ payload
              wf_ConsultationSummaryResponseSchema Hv)
    as (Hparse & Hc & Hn & Heq).
  rewrite Hparse.
  eexists _, (recognised ConsultationSummaryResponseSchema <$> payload).
  do 5 (split; [reflexivity|]). split; [exact Hc|]. split; [exact Hn|exact Heq].
Qed.

(** C10.  A [complete] envelope whose payload has the shape of the data
    model and also carries a key that no schema names still passes
    validation, and the structured output is the payload without such
    keys: it conforms, holds no unrecognized key, and differs from the
    input. *)
Theorem complete_extra_keys_are_stripped ev st payload :
  envelope JSON_parse ev "complete" "data" payload →
  conforms ConsultationSummaryResponseSchema payload = true →
  no_extra ConsultationSummaryResponseSchema payload = false →
  ∃ st' out,
    onmessage JSON_parse ev st = Normal st'
    ∧ structuredOutput (form st') = out
    ∧ loading (form st') = false
    ∧ out = (recognised ConsultationSummaryResponseSchema <$> payload)
    ∧ conforms ConsultationSummaryResponseSchema out = true
    ∧ no_extra ConsultationSummaryResponseSchema out = true
    ∧ out ≠ payload.
Proof.
  intros Henv Hv Hextra. rewrite (onmessage_complete ev st payload Henv).
  destruct (safeParse_conforms _ payload
              wf_ConsultationSummaryResponseSchema Hv)
    as (Hparse & Hc & Hn & _).
  rewrite Hparse.
  eexists _, (recognised ConsultationSummaryResponseSchema <$> payload).
  do 4 (split; [reflexivity|]). split; [exact Hc|]. split; [exact Hn|].
  intros Heq. rewrite Heq in Hn. congruence.
Qed.

(** X2.  A [complete] envelope whose payload does not have the shape of the
    data model sets no structured output: the whole report is logged, the
    failure is alerted and loading ends. *)
Lemma complete_nonconforming_payload_fails ev st payload :
  envelope JSON_parse ev "complete" "data" payload →
  conforms ConsultationSummaryResponseSchema payload = false →
  ∃ st', onmessage JSON_parse ev st = Normal st'
         ∧ structuredOutput (form st') = structuredOutput (form st)
         ∧ loading (form st') = false
         ∧ effects st' =
             effects st ++
             [console_log "Stream complete, received validated data" None;
              console_error "Validation failed:"
                (arg_ZodError
                   (issues_of ConsultationSummaryResponseSchema payload));
              alert "Failed to validate response"].
Proof.
  intros Henv Hv. rewrite (onmessage_complete ev st payload Henv).
  rewrite safeParse_issues.
  - eexists. split; [done|]. simpl. by rewrite <- !app_assoc.
  - unfold issues_of. intros Hnil.
    apply (parse_issues_nil _ [] payload) in Hnil. congruence.
Qed.

(** C4.  A message that is not JSON, or whose decoded [type] is none of
    [chunk], [complete] and [error], makes the handler return normally
    with the buffer and the whole component state (structured output and
    loading flag included) as they were. *)
Theorem unknown_message_is_ignored ev st :
  (JSON_parse (data ev) = None
   ∨ ∃ parsed, JSON_parse (data ev) = Some parsed
               ∧ ∀ t, member parsed "type" = Normal (Some (JStr t))
                      → t ∉ ["chunk"; "complete"; "error"]) →
  ∃ st', onmessage JSON_parse ev st = Normal st'
         ∧ buffer st' = buffer st
         ∧ form st' = form st.
Proof.
  run_handler.
  intros [-> | (parsed & -> & Hty)]; simpl; [eauto|].
  destruct (member parsed "type") as [type|e] eqn:Hm; simpl; [|eauto].
  assert (∀ lit, lit ∈ ["chunk"; "complete"; "error"] →
                 strict_equals type lit = false) as Hne.
  { intros lit Hlit. apply strict_equals_false. intros t -> ->.
    by apply (Hty lit). }
  rewrite !Hne by set_solver. simpl. eauto.
Qed.

(** C5.  A session that receives only [chunk] envelopes ends with the
    buffer equal to their contents, concatenated in arrival order; the
    component state is not touched after the start of the session.  Any
    other sequence of chunks with the same total text ends with the same
    buffer. *)
Theorem chunks_concatenate_in_order jwt evs cs f before :
  truthy_string jwt = true →
  Forall2 (fun ev c =>
             envelope JSON_parse ev "chunk" "content" (Some (JStr c)))
          evs cs →
  ∃ st', handleSubmit JSON_parse (Some jwt) (map Message evs) f before
         = Normal st'
         ∧ buffer st' = text_concat cs
         ∧ form st' = setLoading true (setOutput "" f)
         ∧ ∀ evs' cs',
             Forall2 (fun ev c =>
                        envelope JSON_parse ev "chunk" "content"
                                 (Some (JStr c)))
                     evs' cs' →
             text_concat cs' = text_concat cs →
             ∃ st'', handleSubmit JSON_parse (Some jwt) (map Message evs')
                       f before = Normal st''
                     ∧ buffer st'' = buffer st'.
Proof.
  intros Hjwt Hcs. rewrite handleSubmit_connects by done.
  rewrite (deliver_chunks evs cs _ Hcs). eexists. split; [done|].
  split; [apply append_nil_l|]. split; [done|].
  intros evs' cs' Hcs' Hsame. rewrite handleSubmit_connects by done.
  rewrite (deliver_chunks evs' cs' _ Hcs'). eexists. split; [done|].
  simpl. by rewrite Hsame.
Qed.

(** C6 (as amended).  An [error] envelope with message [m] ends loading
    without a structured output being set by it, and shows the alert
    [Error: m], the message text unchanged after the fixed prefix.  It
    does not end the session: what is delivered after it is handled from
    the state it left. *)
Theorem error_message_is_shown_verbatim ev st m :
  envelope JSON_parse ev "error" "message" (Some (JStr m)) →
  ∃ st', onmessage JSON_parse ev st = Normal st'
         ∧ loading (form st') = false
         ∧ structuredOutput (form st') = structuredOutput (form st)
         ∧ buffer st' = buffer st
         ∧ effects st' =
             effects st ++
             [console_error "Backend error:" (arg_value (Some (JStr m)));
              alert ("Error: " +:+ m)]
         ∧ ∀ events,
             deliver JSON_parse (Message ev :: events) st
             = deliver JSON_parse events st'.
Proof.
  intros Henv. eexists. split; [apply (onmessage_error ev st _ m Henv eq_refl)|].
  do 3 (split; [reflexivity|]). split; [simpl; by rewrite <- app_assoc|].
  intros events. simpl. by rewrite (onmessage_error ev st _ m Henv eq_refl).
Qed.

(** C7.  Without a token the run ends at once: the output says that
    authentication is required, loading is off, nothing is delivered and
    no effect is added, so [fetchEventSource] is never called. *)
Theorem no_token_no_connection events f before :
  ∃ st', handleSubmit JSON_parse None events f before = Normal st'
         ∧ output (form st') = "Authentication required"
         ∧ loading (form st') = false
         ∧ structuredOutput (form st') = structuredOutput f
         ∧ buffer st' = ""
         ∧ effects st' = before.
Proof. eexists. by repeat split. Qed.

End Stream_properties.

(** ** Validation reports *)

(** C2.  Validation always answers.  When it accepts, no path of the payload
    ends at a violation; when it rejects, the report is not empty and has,
    for every path, exactly one entry if the path ends at a violation (a
    missing required field, a value of the wrong primitive type, an
    enumerated field outside its set) and none otherwise: every violation
    is reported, whatever their number. *)
Theorem validation_reports_every_violation (payload : value) :
  match safeParse ConsultationSummaryResponseSchema payload with
  | SafeParseSuccess _ =>
      ∀ p, violation_at ConsultationSummaryResponseSchema payload p = false
  | SafeParseError issues =>
      issues ≠ []
      ∧ ∀ p, count_at p issues =
             if violation_at ConsultationSummaryResponseSchema payload p
             then 1 else 0
  end.
Proof.
  pose proof (count_issues_of _ wf_ConsultationSummaryResponseSchema payload)
    as Hcount.
  destruct (safeParse _ payload) as [out|issues] eqn:Hparse.
  - intros p. specialize (Hcount p).
    destruct (violation_at _ payload p); [|done].
    apply count_at_pos_ne, safeParse_issues in Hcount. congruence.
  - apply safeParse_error in Hparse as (-> & Hne & _). done.
Qed.

(** C3.  When the [i]-th assessment or action of a payload holds, in one of
    the enumerated fields, a value that is not one of the tokens of the
    field ([null] apart, which [severity] and [priority] admit), validation
    fails and the report has its entry for that field.  Tokens are compared
    as they are, so [Mild] is not [mild]. *)
Theorem enum_outside_set_is_rejected (payload : value) (f : EnumField)
    (i : nat) (v : json) :
  get_path (enum_path f i) payload = Some v →
  (∀ s, v = JStr s → s ∉ enum_tokens f) →
  (v = JNull → f = action_action_type) →
  ∃ issues,
    safeParse ConsultationSummaryResponseSchema payload = SafeParseError issues
    ∧ count_at (enum_path f i) issues = 1.
Proof.
  intros Hget Hv Hnull.
  assert (∃ τ, schema_at (enum_path f i) ConsultationSummaryResponseSchema
               = Some τ
               ∧ violates τ (Some v) = true) as (τ & Hτ & Hbad).
  { destruct f; eexists; (split; [reflexivity|]); simpl;
      destruct v as [| | |s| |]; try done;
      try (by specialize (Hnull eq_refl));
      rewrite bool_decide_eq_false_2; try done; by apply Hv. }
  pose proof (locate_of_get_path _ _ _ _ _ Hτ Hget) as Hloc.
  pose proof (count_issues_of _ wf_ConsultationSummaryResponseSchema
                payload (enum_path f i)) as Hcount.
  unfold violation_at in Hcount. rewrite Hloc, Hbad in Hcount.
  exists (issues_of ConsultationSummaryResponseSchema payload).
  split; [|done]. by apply safeParse_issues, (count_at_pos_ne (enum_path f i)).
Qed.

(** ** The formatters *)

Lemma imap_ignore_index {A B} (g : A → B) (l : list A) :
  imap (fun _ x => g x) l = map g l.
Proof.
  induction l as [|x l IH]; simpl; [done|]. f_equal. rewrite <- IH.
  by apply imap_ext.
Qed.

(** A [forEach] whose callback appends one line to [output]. *)
Lemma forEach_from_lines {A} (callback : A → nat → string → string)
    (line : nat → A → string) (l : list A) :
  (∀ x i out, callback x i out = out +:+ line i x) →
  ∀ i out,
    forEach_from i l callback out =
    out +:+ text_concat (imap (fun j x => line (i + j) x) l).
Proof.
  intros Hcb. induction l as [|x l IH]; intros i out.
  - simpl. by rewrite append_nil_r.
  - cbn [forEach_from imap].
    rewrite IH, Hcb, append_assoc, text_concat_cons, Nat.add_0_r.
    do 3 f_equal. apply imap_ext. intros j y _. simpl. f_equal. lia.
Qed.

Lemma forEach_lines {A} (callback : A → nat → string → string)
    (line : nat → A → string) (l : list A) (out : string) :
  (∀ x i out, callback x i out = out +:+ line i x) →
  forEach l callback out = out +:+ text_concat (imap line l).
Proof. intros Hcb. unfold forEach. by rewrite (forEach_from_lines _ line). Qed.

Ltac normalise_text :=
  rewrite ?append_assoc, ?append_nil_r, ?append_nil_l.

(** C8.  The clinical summary is the preamble, the vital-signs block, the
    examination block, the assessment block and the notes block, in that
    order.  The examination block is empty when there is no finding and
    otherwise has its header and one line [- body_part: finding] for each
    finding; the assessment block is always there, with its header and,
    for the [n]-th assessment counted from one, the line [n. diagnosis]
    followed by the ICD-10 suffix and then the severity suffix, each only
    when the field holds a value. *)
Theorem formatClinicalSummary_layout (summary : ClinicalSummary) :
  formatClinicalSummary summary =
  summary_preamble summary +:+
  titled_block "Vital Signs:" (vital_signs summary) +:+
  exam_block (physical_exam_findings summary) +:+
  assessment_block (assessments summary) +:+
  titled_block "Additional Notes:" (additional_notes summary).
Proof.
  unfold formatClinicalSummary.
  rewrite (forEach_lines _ (fun i a => assessment_line (i + 1) a)).
  2:{ intros a i out. unfold assessment_line, icd_suffix, severity_suffix.
      destruct (icd_code a) as [| |[|c code]], (severity a) as [| |sev];
        simpl; by normalise_text. }
  rewrite (forEach_lines _ (fun _ f => finding_line f))
    by (intros f i out; unfold finding_line; by normalise_text).
  rewrite imap_ignore_index.
  unfold summary_preamble, titled_block, exam_block, assessment_block.
  destruct (vital_signs summary) as [| |[|c vs]],
    (physical_exam_findings summary) as [|f fs],
    (additional_notes summary) as [| |[|c' an]];
    simpl; by normalise_text.
Qed.

Lemma toUpperCase_token (a : ActionType) :
  toUpperCase (ActionType_token a) = ACTION_TYPE_UPPERCASE a.
Proof. by destruct a. Qed.

(** C9.  The next steps are the action lines, the follow-up line and the
    red-flags block, in that order.  The [n]-th action counted from one
    gives the line [n. [ACTION_TYPE] description] followed by the timeline
    suffix and then the priority suffix, each only when the field holds a
    value; the follow-up line is empty unless the appointment holds a
    text; the red-flags block is empty unless there is at least one flag,
    and then has the header and one line [- flag] for each flag. *)
Theorem formatNextSteps_layout (nextSteps : NextSteps) :
  formatNextSteps nextSteps =
  text_concat (imap (fun i a => action_line (i + 1) a) (actions nextSteps)) +:+
  follow_up_line (follow_up_appointment nextSteps) +:+
  red_flags_block (red_flags nextSteps).
Proof.
  unfold formatNextSteps.
  rewrite (forEach_lines _ (fun i a => action_line (i + 1) a)).
  2:{ intros a i out. unfold action_line, timeline_suffix, priority_suffix.
      rewrite toUpperCase_token.
      destruct (timeline a) as [| |[|c t]], (priority a) as [| |p];
        simpl; by normalise_text. }
  unfold follow_up_line, red_flags_block.
  destruct (follow_up_appointment nextSteps) as [| |[|c fu]],
    (red_flags nextSteps) as [| |[|flag flags]];
    cbn [truthy truthy_string text_of length Nat.ltb Nat.leb];
    try (by normalise_text).
  all: rewrite (forEach_lines _ (fun _ fl => "- " +:+ fl +:+ LF))
         by (intros; by normalise_text).
  all: rewrite imap_ignore_index; by normalise_text.
Qed.

(** ** The test suites *)

Example valid_payload_passes :
  safeParse ConsultationSummaryResponseSchema (Some valid_payload)
  = SafeParseSuccess (Some valid_payload).
Proof. vm_compute. reflexivity. Qed.

Example bad_payload_fails :
  ∃ issues, safeParse ConsultationSummaryResponseSchema (Some bad_payload)
            = SafeParseError issues ∧ length issues = 15.
Proof. vm_compute. eauto. Qed.

Example capitalised_assessment_fails :
  ∃ issues,
    safeParse AssessmentSchema
      (Some (obj [("diagnosis", JStr "Migraine"); ("severity", JStr "Mild")]))
    = SafeParseError issues
    ∧ map issue_path issues = [[Key "severity"]].
Proof. vm_compute. eauto. Qed.

Ltac known_frame :=
  eexists; split; [reflexivity | split; vm_compute; reflexivity].

Example extra_key_is_removed :
  recognised ConsultationSummaryResponseSchema extra_payload = valid_payload.
Proof. vm_compute. reflexivity. Qed.

(** The payload with one more key conforms, passes, and comes out without
    that key: the structured output is not the payload that was sent. *)
Lemma complete_extra_key_not_deep_equal :
  envelope (decoder_of frames) (wire "frame-6") "complete" "data"
           (Some extra_payload)
  ∧ conforms ConsultationSummaryResponseSchema (Some extra_payload) = true
  ∧ ∃ st', onmessage (decoder_of frames) (wire "frame-6") streaming
           = Normal st'
           ∧ structuredOutput (form st') = Some valid_payload
           ∧ structuredOutput (form st') ≠ Some extra_payload.
Proof.
  assert (envelope (decoder_of frames) (wire "frame-6") "complete" "data"
                   (Some extra_payload)) as Henv by known_frame.
  split; [exact Henv|]. split; [vm_compute; reflexivity|].
  rewrite (onmessage_complete _ _ _ _ Henv).
  assert (safeParse ConsultationSummaryResponseSchema (Some extra_payload)
          = SafeParseSuccess (Some valid_payload)) as ->
    by (vm_compute; reflexivity).
  eexists. split; [reflexivity|]. split; [reflexivity|]. simpl.
  intros Heq.
  assert (no_extra ConsultationSummaryResponseSchema (Some valid_payload)
          = no_extra ConsultationSummaryResponseSchema (Some extra_payload))
    as Hn by (by rewrite Heq).
  vm_compute in Hn. discriminate.
Qed.

Lemma complete_conforming_payload_is_done_witness :
  envelope (decoder_of frames) (wire "frame-5") "complete" "data"
           (Some valid_payload)
  ∧ conforms ConsultationSummaryResponseSchema (Some valid_payload) = true
  ∧ ∃ st' out,
      onmessage (decoder_of frames) (wire "frame-5") streaming = Normal st'
      ∧ structuredOutput (form st') = out
      ∧ loading (form st') = false
      ∧ effects st' =
          effects streaming
          ++ [console_log "Stream complete, received validated data" None]
      ∧ out = (recognised ConsultationSummaryResponseSchema
                 <$> Some valid_payload)
      ∧ conforms ConsultationSummaryResponseSchema out = true
      ∧ no_extra ConsultationSummaryResponseSchema out = true
      ∧ (no_extra ConsultationSummaryResponseSchema (Some valid_payload) = true
         → out = Some valid_payload).
Proof.
  split; [known_frame|]. split; [vm_compute; reflexivity|].
  apply (complete_conforming_payload_is_done (decoder_of frames)
           (wire "frame-5") streaming (Some valid_payload)).
  - known_frame.
  - vm_compute; reflexivity.
Defined.

Lemma complete_extra_keys_are_stripped_witness :
  conforms ConsultationSummaryResponseSchema (Some extra_payload) = true
  ∧ no_extra ConsultationSummaryResponseSchema (Some extra_payload) = false
  ∧ ∃ st' out,
    onmessage (decoder_of frames) (wire "frame-6") streaming = Normal st'
    ∧ structuredOutput (form st') = out
    ∧ loading (form st') = false
    ∧ out = (recognised ConsultationSummaryResponseSchema
               <$> Some extra_payload)
    ∧ conforms ConsultationSummaryResponseSchema out = true
    ∧ no_extra ConsultationSummaryResponseSchema out = true
    ∧ out ≠ Some extra_payload.
Proof.
  split; [vm_compute; reflexivity|]. split; [vm_compute; reflexivity|].
  apply (complete_extra_keys_are_stripped (decoder_of frames)
           (wire "frame-6") streaming (Some extra_payload)).
  - known_frame.
  - vm_compute; reflexivity.
  - vm_compute; reflexivity.
Defined.

Lemma enum_outside_set_is_rejected_witness :
  get_path (enum_path assessment_severity 0) (Some capitalised_payload)
  = Some (JStr "Mild")
  ∧ ∃ issues,
    safeParse ConsultationSummaryResponseSchema (Some capitalised_payload)
    = SafeParseError issues
    ∧ count_at (enum_path assessment_severity 0) issues = 1.
Proof.
  split; [vm_compute; reflexivity|].
  apply (enum_outside_set_is_rejected (Some capitalised_payload)
           assessment_severity 0 (JStr "Mild")).
  - vm_compute; reflexivity.
  - intros s [= <-]. vm_compute. intros H.
    repeat (apply elem_of_cons in H as [H|H]; [discriminate|]).
    by apply elem_of_nil in H.
  - discriminate.
Defined.

Lemma unknown_message_is_ignored_witness :
  decoder_of frames (data (wire "not json")) = None
  ∧ ∃ st', onmessage (decoder_of frames) (wire "not json") streaming
         = Normal st'
         ∧ buffer st' = buffer streaming
         ∧ form st' = form streaming.
Proof.
  split; [vm_compute; reflexivity|].
  apply (unknown_message_is_ignored (decoder_of frames) (wire "not json")
           streaming).
  left. vm_compute; reflexivity.
Defined.

Lemma chunks_concatenate_in_order_witness :
  Forall2 (fun ev c => envelope (decoder_of frames) ev "chunk" "content"
                                (Some (JStr c)))
          [wire "frame-1"; wire "frame-2"] ["Hel"; "lo"]
  ∧ ∃ st', handleSubmit (decoder_of frames) (Some "fake-jwt")
             (map Message [wire "frame-1"; wire "frame-2"]) idle_form []
           = Normal st'
           ∧ buffer st' = text_concat ["Hel"; "lo"]
           ∧ form st' = setLoading true (setOutput "" idle_form)
           ∧ ∀ evs' cs',
               Forall2 (fun ev c =>
                          envelope (decoder_of frames) ev "chunk" "content"
                                   (Some (JStr c)))
                       evs' cs' →
               text_concat cs' = text_concat ["Hel"; "lo"] →
               ∃ st'', handleSubmit (decoder_of frames) (Some "fake-jwt")
                         (map Message evs') idle_form [] = Normal st''
                       ∧ buffer st'' = buffer st'.
Proof.
  split; [repeat constructor; known_frame|].
  apply (chunks_concatenate_in_order (decoder_of frames) "fake-jwt"
           [wire "frame-1"; wire "frame-2"] ["Hel"; "lo"] idle_form []).
  - reflexivity.
  - repeat constructor; known_frame.
Defined.

Lemma error_message_is_shown_verbatim_witness :
  envelope (decoder_of frames) (wire "frame-7") "error" "message"
           (Some (JStr "Something went wrong"))
  ∧ ∃ st', onmessage (decoder_of frames) (wire "frame-7") streaming
           = Normal st'
           ∧ loading (form st') = false
           ∧ structuredOutput (form st') = structuredOutput (form streaming)
           ∧ buffer st' = buffer streaming
           ∧ effects st' =
               effects streaming ++
               [console_error "Backend error:"
                  (arg_value (Some (JStr "Something went wrong")));
                alert ("Error: " +:+ "Something went wrong")]
           ∧ ∀ events,
               deliver (decoder_of frames) (Message (wire "frame-7") :: events)
                       streaming
               = deliver (decoder_of frames) events st'.
Proof.
  split; [known_frame|].
  apply (error_message_is_shown_verbatim (decoder_of frames)
           (wire "frame-7") streaming "Something went wrong").
  known_frame.
Defined.

(** An [error] envelope does not end the session: after it no results are
    in the page, and the [complete] envelope that follows it is handled
    like any other, so that the results of its payload are shown. *)
Lemma error_envelope_does_not_end_session :
  envelope (decoder_of frames) (wire "frame-7") "error" "message"
           (Some (JStr "Something went wrong"))
  ∧ ∃ st1 st2,
      deliver (decoder_of frames) [Message (wire "frame-7")] streaming
      = Normal st1
      ∧ deliver (decoder_of frames)
          [Message (wire "frame-7"); Message (wire "frame-5")] streaming
        = Normal st2
      ∧ structuredOutput (form st1) = None
      ∧ showsResults (form st1) = false
      ∧ structuredOutput (form st2) = Some valid_payload
      ∧ showsResults (form st2) = true.
Proof.
  split; [known_frame|].
  eexists _, _. repeat split; vm_compute; reflexivity.
Qed.

(** Both ways of cutting [Hello] give the same buffer. *)
Example chunk_boundaries_do_not_matter :
  ∃ st1 st2,
    handleSubmit (decoder_of frames) (Some "fake-jwt")
      (map Message [wire "frame-1"; wire "frame-2"]) idle_form [] = Normal st1
    ∧ handleSubmit (decoder_of frames) (Some "fake-jwt")
        (map Message [wire "frame-3"; wire "frame-4"]) idle_form [] = Normal st2
    ∧ buffer st1 = "Hello" ∧ buffer st2 = "Hello".
Proof. eexists _, _. repeat split; vm_compute; reflexivity. Qed.

(** A frame of an unknown type and the frame [null] are ignored too. *)
Example unknown_type_and_null_are_ignored :
  ∀ text, text ∈ ["frame-8"; "frame-9"] →
    ∃ st', onmessage (decoder_of frames) (wire text) streaming = Normal st'
           ∧ buffer st' = "" ∧ form st' = idle_form.
Proof.
  intros text Htext.
  repeat (apply elem_of_cons in Htext as [->|Htext];
          [eexists; repeat split; vm_compute; reflexivity|]).
  by apply elem_of_nil in Htext.
Qed.

Example formatClinicalSummary_test :
  let result := formatClinicalSummary test_summary in
  includes result "Patient: John Doe" = true
  ∧ includes result "Chief Complaint: Headache" = true
  ∧ includes result "ICD-10: G44.2" = true
  ∧ includes result "Severity: mild" = true.
Proof. vm_compute. done. Qed.

Example formatNextSteps_test :
  let result := formatNextSteps test_nextSteps in
  includes result "[TREATMENT] Take acetaminophen" = true
  ∧ includes result "Timeline: As needed" = true
  ∧ includes result "Priority: high" = true
  ∧ includes result "Follow-up Appointment: 2025-11-20" = true
  ∧ includes result "Red Flags" = true.
Proof. vm_compute. done. Qed.

(** * Further properties *)

(** ** More on the validator *)

Lemma shape_lookup_elem k τ shape :
  NoDup (map fst shape) → (k, τ) ∈ shape → shape_lookup k shape = Some τ.
Proof.
  induction shape as [|kv shape IH]; simpl; intros Hnd Hin.
  - by apply elem_of_nil in Hin.
  - apply NoDup_cons in Hnd as [Hfresh Hnd].
    apply elem_of_cons in Hin as [<-|Hin]; simpl.
    + by rewrite bool_decide_eq_true_2.
    + rewrite bool_decide_eq_false_2; [by apply IH|].
      intros Heq. apply Hfresh. rewrite Heq.
      apply list_elem_of_fmap. by exists (k, τ).
Qed.

(** Removing unrecognized keys keeps the kind of a value. *)
Lemma recognised_kind τ j :
  getParsedType (Some (recognised τ j)) = getParsedType (Some j).
Proof.
  revert j.
  induction τ as [|values|element IH|shape IH|inner IH|inner IH]
    using ZodType_shape_ind; intros j; simpl; try done.
  - by destruct j.
  - by destruct j.
  - apply IH.
  - apply IH.
Qed.

Lemma recognised_not_null τ j : j ≠ JNull → recognised τ j ≠ JNull.
Proof.
  intros Hj Heq. pose proof (recognised_kind τ j) as Hk. rewrite Heq in Hk.
  by destruct j.
Qed.

Lemma recognised_lookup shape props kv :
  NoDup (map fst shape) → kv ∈ shape →
  map_imap (fun k j => (fun τ => recognised τ j) <$> shape_lookup k shape)
           props !! fst kv
  = recognised (snd kv) <$> props !! fst kv.
Proof.
  intros Hnd Hkv. rewrite map_lookup_imap.
  destruct (props !! fst kv) as [j|]; simpl; [|done].
  rewrite (shape_lookup_elem (fst kv) (snd kv)); [done|done|].
  by destruct kv.
Qed.

Lemma imap_map {A B C} (f : nat → B → C) (g : A → B) (l : list A) :
  imap f (map g l) = imap (fun i x => f i (g x)) l.
Proof.
  revert f. induction l as [|x l IH]; intros f; simpl; [done|].
  by rewrite IH.
Qed.

Lemma forallb_map {A B} (h : B → bool) (g : A → B) (l : list A) :
  forallb h (map g l) = forallb (fun x => h (g x)) l.
Proof. induction l as [|x l IH]; simpl; [done|]. by rewrite IH. Qed.

Lemma forallb_ext_elem {A} (g h : A → bool) (l : list A) :
  (∀ x, x ∈ l → g x = h x) → forallb g l = forallb h l.
Proof.
  induction l as [|x l IH]; simpl; intros H; [done|].
  rewrite (H x) by apply list_elem_of_here. f_equal.
  apply IH. intros y Hy. apply H. by apply list_elem_of_further.
Qed.

Lemma map_ext_elem {A B} (g h : A → B) (l : list A) :
  (∀ x, x ∈ l → g x = h x) → map g l = map h l.
Proof.
  induction l as [|x l IH]; simpl; intros H; [done|].
  rewrite (H x) by apply list_elem_of_here. f_equal.
  apply IH. intros y Hy. apply H. by apply list_elem_of_further.
Qed.

(** Unrecognized keys do not count for the shape. *)
Lemma conforms_recognised τ :
  wf_schema τ = true →
  ∀ v, conforms τ (recognised τ <$> v) = conforms τ v.
Proof.
  induction τ as [|values|element IH|shape IH|inner IH|inner IH]
    using ZodType_shape_ind; intros Hwf v.
  - by destruct v.
  - by destruct v.
  - destruct v as [[| | | |items|]|]; try done. simpl.
    rewrite forallb_map. apply forallb_ext_elem. intros x _.
    apply (IH Hwf (Some x)).
  - destruct v as [[| | | | |props]|]; try done.
    change (recognised (ZodObject shape) <$> Some (JObj props))
      with (Some (recognised (ZodObject shape) (JObj props))).
    rewrite recognised_object. simpl in *.
    apply andb_true_iff in Hwf as [Hnd Hwf]. apply bool_decide_eq_true in Hnd.
    apply forallb_Forall in Hwf. rewrite Forall_forall in IH, Hwf.
    apply forallb_ext_elem. intros kv Hkv.
    rewrite recognised_lookup by done. by apply IH; [|apply Hwf].
  - destruct v as [j|]; [|done]. apply (IH Hwf (Some j)).
  - destruct v as [j|]; [|done]. simpl in *.
    pose proof (recognised_kind inner j) as Hk.
    specialize (IH Hwf (Some j)). simpl in IH.
    destruct j; [by rewrite recognised_null|..];
      destruct (recognised inner _) eqn:Hr; done.
Qed.

(** Unrecognized keys do not show in the report. *)
Lemma issues_of_recognised τ :
  wf_schema τ = true →
  ∀ v, issues_of τ (recognised τ <$> v) = issues_of τ v.
Proof.
  induction τ as [|values|element IH|shape IH|inner IH|inner IH]
    using ZodType_shape_ind; intros Hwf v.
  - by destruct v.
  - by destruct v.
  - destruct v as [[| | | |items|]|]; try done.
    change (recognised (ZodArray element) <$> Some (JArr items))
      with (Some (JArr (map (recognised element) items))).
    rewrite !issues_of_array, imap_map. apply concat_imap_ext.
    intros i x _. f_equal. apply (IH Hwf (Some x)).
  - destruct v as [[| | | | |props]|]; try done.
    change (recognised (ZodObject shape) <$> Some (JObj props))
      with (Some (recognised (ZodObject shape) (JObj props))).
    rewrite recognised_object, !issues_of_object. simpl in Hwf.
    apply andb_true_iff in Hwf as [Hnd Hwf]. apply bool_decide_eq_true in Hnd.
    apply forallb_Forall in Hwf. rewrite Forall_forall in IH, Hwf.
    f_equal. apply map_ext_elem. intros kv Hkv. f_equal.
    rewrite recognised_lookup by done. by apply IH; [|apply Hwf].
  - destruct v as [j|]; [|done]. apply (IH Hwf (Some j)).
  - destruct v as [j|]; [|done].
    pose proof (recognised_kind inner j) as Hk.
    specialize (IH Hwf (Some j)). unfold issues_of in *. simpl in *.
    destruct j; [by rewrite recognised_null|..];
      destruct (recognised inner _) eqn:Hr; done.
Qed.

(** [safeParse] from the shape, the report and the recognised part. *)
Lemma safeParse_spec τ v :
  wf_schema τ = true →
  safeParse τ v =
  if conforms τ v then SafeParseSuccess (recognised τ <$> v)
  else SafeParseError (issues_of τ v).
Proof.
  intros Hwf. destruct (conforms τ v) eqn:Hv.
  - by destruct (safeParse_conforms τ v Hwf Hv) as (-> & _).
  - apply safeParse_issues. unfold issues_of. intros Hnil.
    apply (parse_issues_nil τ [] v) in Hnil. congruence.
Qed.

Lemma recognised_idempotent τ v :
  wf_schema τ = true → conforms τ v = true →
  recognised τ <$> (recognised τ <$> v) = recognised τ <$> v.
Proof.
  intros Hwf Hv.
  destruct (safeParse_conforms τ v Hwf Hv) as (_ & Hc & Hn & _).
  destruct (safeParse_conforms τ _ Hwf Hc) as (_ & _ & _ & Heq).
  by apply Heq.
Qed.

(** X9.  Validation is idempotent: what [safeParse] returns on success
    passes [safeParse] again and comes back unchanged. *)
Theorem safeParse_idempotent (payload out : value) :
  safeParse ConsultationSummaryResponseSchema payload = SafeParseSuccess out →
  safeParse ConsultationSummaryResponseSchema out = SafeParseSuccess out.
Proof.
  rewrite !safeParse_spec by apply wf_ConsultationSummaryResponseSchema.
  destruct (conforms _ payload) eqn:Hv; [|done]. intros [= <-].
  rewrite conforms_recognised, Hv
    by apply wf_ConsultationSummaryResponseSchema.
  f_equal.
  by apply recognised_idempotent; [apply wf_ConsultationSummaryResponseSchema|].
Qed.

(** X10.  Keys that no schema names are invisible to validation: a payload
    and the same payload without them get the same answer, the same
    output on success and the same report on failure. *)
Theorem safeParse_ignores_unrecognised_keys (payload : value) :
  safeParse ConsultationSummaryResponseSchema
    (recognised ConsultationSummaryResponseSchema <$> payload)
  = safeParse ConsultationSummaryResponseSchema payload.
Proof.
  rewrite !safeParse_spec by apply wf_ConsultationSummaryResponseSchema.
  rewrite conforms_recognised, issues_of_recognised
    by apply wf_ConsultationSummaryResponseSchema.
  destruct (conforms _ payload) eqn:Hv; [|done].
  f_equal.
  by apply recognised_idempotent; [apply wf_ConsultationSummaryResponseSchema|].
Qed.

Lemma wf_AssessmentSchema : wf_schema AssessmentSchema = true.
Proof. vm_compute. reflexivity. Qed.

(** X11.  [AssessmentSchema] accepts exactly the objects with a string
    [diagnosis], an [icd_code] that is absent, [null] or a string, and a
    [severity] that is absent, [null] or one of the three tokens. *)
Theorem AssessmentSchema_accepts (v : value) :
  (∃ out, safeParse AssessmentSchema v = SafeParseSuccess out) ↔
  ∃ props,
    v = Some (JObj props)
    ∧ (∃ d, props !! "diagnosis" = Some (JStr d))
    ∧ (props !! "icd_code" = None
       ∨ props !! "icd_code" = Some JNull
       ∨ ∃ c, props !! "icd_code" = Some (JStr c))
    ∧ (props !! "severity" = None
       ∨ props !! "severity" = Some JNull
       ∨ ∃ s, props !! "severity" = Some (JStr s)
              ∧ s ∈ ["mild"; "moderate"; "severe"]).
Proof.
  rewrite (safeParse_spec _ _ wf_AssessmentSchema).
  split.
  - intros [out Hout]. destruct (conforms AssessmentSchema v) eqn:Hv; [|done].
    destruct v as [[| | | | |props]|]; try done. exists props.
    split; [done|]. simpl in Hv.
    destruct (props !! "diagnosis") as [[| | |d| |]|]; try done.
    split; [eauto|].
    destruct (props !! "icd_code") as [[| | |c| |]|]; try done;
      (split; [eauto|]);
      destruct (props !! "severity") as [[| | |s| |]|]; try done; eauto;
      simpl in Hv; rewrite andb_true_r in Hv;
      apply bool_decide_eq_true in Hv; eauto.
  - intros (props & -> & [d Hd] & Hicd & Hsev).
    assert (conforms AssessmentSchema (Some (JObj props)) = true) as ->;
      [|eauto].
    simpl. rewrite Hd.
    destruct Hicd as [Hi|[Hi|[c Hi]]]; rewrite Hi;
      destruct Hsev as [Hs|[Hs|(s & Hs & Hin)]]; rewrite Hs; simpl;
      try done; rewrite andb_true_r; by apply bool_decide_eq_true.
Qed.

(** ** More on the stream handlers *)

Lemma later_refl st : later st st.
Proof. exists []. by rewrite app_nil_r. Qed.

Lemma later_trans st1 st2 st3 : later st1 st2 → later st2 st3 → later st1 st3.
Proof.
  intros (new1 & He1 & Hc1 & ? & ? & ? & ? & ?)
         (new2 & He2 & Hc2 & ? & ? & ? & ? & ?).
  exists (new1 ++ new2). unfold fetchEventSource_calls in *.
  rewrite He2, He1, <- app_assoc, List.filter_app, Hc1, Hc2.
  repeat split; congruence.
Qed.

Lemma later_emit e st : is_fetchEventSource e = false → later st (emit e st).
Proof. intros He. exists [e]. simpl. by rewrite He. Qed.

Lemma later_setLoading b st : later st (with_form (setLoading b) st).
Proof. exists []. simpl. by rewrite app_nil_r. Qed.

Lemma later_setStructuredOutput v st :
  later st (with_form (setStructuredOutput v) st).
Proof. exists []. simpl. by rewrite app_nil_r. Qed.

Lemma later_with_buffer b st : later st (with_buffer b st).
Proof. exists []. simpl. by rewrite app_nil_r. Qed.

Ltac later_steps :=
  repeat first
    [ apply later_refl
    | (eapply later_trans; [|apply later_setLoading])
    | (eapply later_trans; [|apply later_setStructuredOutput])
    | (eapply later_trans; [|apply later_with_buffer])
    | (eapply later_trans; [|by apply later_emit]) ].

Ltac handler_cases :=
  repeat (match goal with
          | |- context [strict_equals ?a ?b] => destruct (strict_equals a b)
          | |- context [safeParse ?a ?b] => destruct (safeParse a b)
          | |- context [ToString_value ?a] => destruct (ToString_value a)
          end; simpl).

Section Stream_more.

Variable JSON_parse : string → option json.

(** Every message is handled: what the [try] block throws is caught. *)
Lemma onmessage_later ev st :
  ∃ st', onmessage JSON_parse ev st = Normal st' ∧ later st st'.
Proof.
  run_handler.
  destruct (JSON_parse (data ev)) as [parsed|]; simpl;
    [destruct parsed; simpl|];
    handler_cases;
    eexists; (split; [reflexivity|]); later_steps.
Qed.

Lemma dispatch_later t st :
  ∃ st', dispatch JSON_parse t st = Normal st' ∧ later st st'.
Proof.
  destruct t as [ev| |err]; simpl.
  - apply onmessage_later.
  - eexists. split; [reflexivity|]. unfold onclose. later_steps.
  - eexists. split; [reflexivity|]. unfold onerror. later_steps.
Qed.

Lemma deliver_later events : ∀ st,
  ∃ st', deliver JSON_parse events st = Normal st' ∧ later st st'.
Proof.
  induction events as [|t events IH]; intros st; simpl.
  - eexists. split; [reflexivity|apply later_refl].
  - destruct (dispatch_later t st) as (st1 & -> & H1). simpl.
    destruct (IH st1) as (st2 & -> & H2). eexists. split; [reflexivity|].
    by eapply later_trans.
Qed.

Lemma deliver_app events1 events2 st :
  deliver JSON_parse (events1 ++ events2) st =
  st' ← deliver JSON_parse events1 st; deliver JSON_parse events2 st'.
Proof.
  revert st. induction events1 as [|t events1 IH]; intros st; simpl.
  - done.
  - destruct (dispatch JSON_parse t st) as [st'|e]; simpl; [apply IH|done].
Qed.

(** X1.  [handleSubmit] never throws: whatever the token, the messages and
    the way the stream ends, it runs to its end. *)
Theorem handleSubmit_never_throws token events f before :
  ∃ st', handleSubmit JSON_parse token events f before = Normal st'.
Proof.
  unfold handleSubmit. destruct token as [jwt|]; [|eauto].
  destruct (truthy_string jwt); [|eauto].
  edestruct deliver_later as (st' & -> & _). eauto.
Qed.

(** X5.  The code of the component calls [fetchEventSource] once in a
    submission when the token is a non-empty string, with the bearer
    header and the three form fields, and not at all when the token is
    [null] or the empty string; [onmessage], [onclose] and [onerror] hold
    no call of it.  What the library does inside that one call, its
    reconnection after [onerror] returns included, is not counted. *)
Theorem handleSubmit_calls_fetchEventSource_once token events f before :
  ∃ st', handleSubmit JSON_parse token events f before = Normal st'
         ∧ fetchEventSource_calls (effects st') =
             fetchEventSource_calls before ++
             match token with
             | Some jwt =>
                 if truthy_string jwt then [consultation_request jwt f]
                 else []
             | None => []
             end.
Proof.
  unfold handleSubmit. destruct token as [jwt|].
  2:{ eexists. split; [reflexivity|]. simpl. by rewrite app_nil_r. }
  destruct (truthy_string jwt).
  2:{ eexists. split; [reflexivity|]. simpl. by rewrite app_nil_r. }
  edestruct deliver_later as (st' & -> & new & He & Hc & _).
  eexists. split; [reflexivity|]. rewrite He. simpl.
  unfold fetchEventSource_calls in *. by rewrite !List.filter_app, Hc, app_nil_r.
Qed.

(** X4.  No handler sets [streamingBuffer]: from its initial empty value
    it stays empty through a submission, so the streaming preview is never
    in the page. *)
Theorem streaming_preview_never_shows token events f before :
  streamingBuffer f = "" →
  ∃ st', handleSubmit JSON_parse token events f before = Normal st'
         ∧ streamingBuffer (form st') = ""
         ∧ showsStreamingPreview (form st') = false.
Proof.
  intros Hf.
  assert (∃ st', handleSubmit JSON_parse token events f before = Normal st'
                 ∧ streamingBuffer (form st') = "") as (st' & Hrun & Hsb).
  { unfold handleSubmit. destruct token as [jwt|]; [|eauto].
    destruct (truthy_string jwt); [|eauto].
    edestruct deliver_later as (st' & -> & new & _ & _ & _ & _ & _ & _ & Hsb).
    eexists. split; [reflexivity|]. by rewrite Hsb. }
  exists st'. repeat split; try done.
  unfold showsStreamingPreview. rewrite Hsb. simpl. by rewrite andb_false_r.
Qed.

(** The buffer decides nothing: a handler run from another buffer gives the
    same session but for the buffer. *)
Lemma dispatch_buffer t st b :
  ∃ st' b', dispatch JSON_parse t st = Normal st'
            ∧ dispatch JSON_parse t (with_buffer b st)
              = Normal (with_buffer b' st').
Proof.
  destruct t as [ev| |err]; simpl.
  2,3: eexists _, b; split; reflexivity.
  run_handler. simpl.
  destruct (JSON_parse (data ev)) as [parsed|]; simpl;
    [destruct parsed; simpl|];
    handler_cases;
    first [ by eexists _, b | by eexists _, _ ].
Qed.

(** X3.  The accumulated buffer is never consulted: the same events
    delivered to two sessions that differ in the buffer alone leave the
    same component state and the same effects. *)
Theorem buffer_is_never_consulted events : ∀ st b,
  ∃ st1 st2,
    deliver JSON_parse events st = Normal st1
    ∧ deliver JSON_parse events (with_buffer b st) = Normal st2
    ∧ form st2 = form st1
    ∧ effects st2 = effects st1.
Proof.
  induction events as [|t events IH]; intros st b; simpl.
  - eexists _, _. repeat split.
  - destruct (dispatch_buffer t st b) as (st' & b' & -> & ->). simpl.
    apply IH.
Qed.

(** X6.  When the transport closes or reports an error, loading ends and
    the submit button is enabled again, whatever was received before; on
    an error the connection is aborted as the last effect. *)
Theorem end_of_stream_ends_loading events st :
  (∃ st', deliver JSON_parse (events ++ [Closed]) st = Normal st'
          ∧ loading (form st') = false
          ∧ submitDisabled (form st') = false)
  ∧ ∀ err,
      ∃ st', deliver JSON_parse (events ++ [Errored err]) st = Normal st'
             ∧ loading (form st') = false
             ∧ submitDisabled (form st') = false
             ∧ last (effects st') = Some abort.
Proof.
  split; [|intros err]; rewrite deliver_app;
    destruct (deliver_later events st) as (st1 & -> & _); simpl;
    eexists; (split; [reflexivity|]); repeat split.
  simpl. by rewrite last_snoc.
Qed.

Lemma conforming_is_object shape (payload : value) :
  conforms (ZodObject shape) payload = true →
  ToBoolean (recognised (ZodObject shape) <$> payload) = true.
Proof. by destruct payload as [[]|]. Qed.

(** X7.  The handler keeps no terminal state: a [complete] envelope with a
    conforming payload sets the structured output and shows the results
    whatever was received before it, an [error] envelope or an earlier
    [complete] included. *)
Theorem conforming_complete_always_sets_output events ev st payload :
  envelope JSON_parse ev "complete" "data" payload →
  conforms ConsultationSummaryResponseSchema payload = true →
  ∃ st', deliver JSON_parse (events ++ [Message ev]) st = Normal st'
         ∧ structuredOutput (form st')
           = (recognised ConsultationSummaryResponseSchema <$> payload)
         ∧ loading (form st') = false
         ∧ showsResults (form st') = true.
Proof.
  intros Henv Hv. rewrite deliver_app.
  destruct (deliver_later events st) as (st1 & -> & _). simpl.
  rewrite (onmessage_complete _ ev st1 payload Henv).
  destruct (safeParse_conforms _ payload
              wf_ConsultationSummaryResponseSchema Hv) as (Hparse & _).
  rewrite Hparse. eexists. split; [reflexivity|].
  split; [reflexivity|]. split; [reflexivity|].
  by apply conforming_is_object.
Qed.

(** X8.  A [chunk] envelope that has no [content] appends the text
    [undefined] to the buffer. *)
Theorem chunk_without_content_appends_undefined ev st :
  envelope JSON_parse ev "chunk" "content" undefined →
  onmessage JSON_parse ev st
  = Normal (with_buffer (buffer st +:+ "undefined") st).
Proof.
  intros Henv. by rewrite (onmessage_chunk _ ev st _ "undefined" Henv).
Qed.

End Stream_more.

(** ** More on the formatters *)

(** The two documents in closed form. *)
Lemma formatClinicalSummary_closed (summary : ClinicalSummary) :
  formatClinicalSummary summary =
  summary_preamble summary +:+
  titled_block "Vital Signs:" (vital_signs summary) +:+
  exam_block (physical_exam_findings summary) +:+
  assessment_block (assessments summary) +:+
  titled_block "Additional Notes:" (additional_notes summary).
Proof.
  unfold formatClinicalSummary.
  rewrite (forEach_lines _ (fun i a => assessment_line (i + 1) a)).
  2:{ intros a i out. unfold assessment_line, icd_suffix, severity_suffix.
      destruct (icd_code a) as [| |[|c code]], (severity a) as [| |sev];
        simpl; by normalise_text. }
  rewrite (forEach_lines _ (fun _ f => finding_line f))
    by (intros f i out; unfold finding_line; by normalise_text).
  rewrite imap_ignore_index.
  unfold summary_preamble, titled_block, exam_block, assessment_block.
  destruct (vital_signs summary) as [| |[|c vs]],
    (physical_exam_findings summary) as [|f fs],
    (additional_notes summary) as [| |[|c' an]];
    simpl; by normalise_text.
Qed.

Lemma formatNextSteps_closed (nextSteps : NextSteps) :
  formatNextSteps nextSteps =
  text_concat (imap (fun i a => action_line (i + 1) a) (actions nextSteps)) +:+
  follow_up_line (follow_up_appointment nextSteps) +:+
  red_flags_block (red_flags nextSteps).
Proof.
  unfold formatNextSteps.
  rewrite (forEach_lines _ (fun i a => action_line (i + 1) a)).
  2:{ intros a i out. unfold action_line, timeline_suffix, priority_suffix.
      rewrite toUpperCase_token.
      destruct (timeline a) as [| |[|c t]], (priority a) as [| |p];
        simpl; by normalise_text. }
  unfold follow_up_line, red_flags_block.
  destruct (follow_up_appointment nextSteps) as [| |[|c fu]],
    (red_flags nextSteps) as [| |[|flag flags]];
    cbn [truthy truthy_string text_of length Nat.ltb Nat.leb];
    try (by normalise_text).
  all: rewrite (forEach_lines _ (fun _ fl => "- " +:+ fl +:+ LF))
         by (intros; by normalise_text).
  all: rewrite imap_ignore_index; by normalise_text.
Qed.

(** X13.  The patient email has a fixed order: greeting, findings, the
    treatment plan under its header, one bulleted line
    [• [Category] instruction] for each instruction, the warning-signs
    block (empty when there is no warning sign, else its header and one
    bulleted line for each), the next steps under their header, the
    closing and the signature, after which no line feed follows. *)
Theorem formatPatientEmail_layout (capitalize : string → string)
    (email : PatientFollowUpEmail) :
  formatPatientEmail capitalize email =
  greeting email +:+ LF +:+ LF +:+
  summary_of_findings email +:+ LF +:+ LF +:+
  "What we're doing next:" +:+ LF +:+ treatment_plan email +:+ LF +:+ LF +:+
  "What you should do:" +:+ LF +:+
  text_concat (map (instruction_line capitalize) (patient_instructions email))
  +:+ warning_signs_block (warning_signs email) +:+
  LF +:+ "Next Steps:" +:+ LF +:+ next_steps_timeline email +:+ LF +:+
  LF +:+ closing email +:+ LF +:+ LF +:+ physician_signature email.
Proof.
  unfold formatPatientEmail.
  rewrite (forEach_lines _ (fun _ i => instruction_line capitalize i))
    by (intros i n out; unfold instruction_line; by normalise_text).
  rewrite imap_ignore_index. unfold warning_signs_block.
  destruct (warning_signs email) as [|w ws];
    cbn [length Nat.ltb Nat.leb]; [by normalise_text|].
  rewrite (forEach_lines _ (fun _ w => "• " +:+ w +:+ LF))
    by (intros; by normalise_text).
  rewrite imap_ignore_index. by normalise_text.
Qed.

Lemma append_eq_nil (s t : string) : s +:+ t = "" ↔ s = "" ∧ t = "".
Proof.
  split; [|by intros [-> ->]].
  destruct s as [|c s]; [by rewrite append_nil_l|].
  by rewrite append_cons.
Qed.

Lemma LF_cons : ∃ c, LF = String c "".
Proof. by eexists. Qed.

Lemma text_concat_lines_nil {A} (line : nat → A → string) (l : list A) :
  (∀ i x, line i x ≠ "") →
  text_concat (imap line l) = "" ↔ l = [].
Proof.
  intros Hline. destruct l as [|x l]; [done|]. split; [|done].
  cbn [imap]. rewrite text_concat_cons, append_eq_nil.
  intros [H _]. by apply Hline in H.
Qed.

Lemma ends_with_LF_nonempty (s : string) : s +:+ LF ≠ "".
Proof. rewrite append_eq_nil. by intros [_ ?]. Qed.

(** X14.  [formatNextSteps] returns the empty string exactly when there is
    nothing to show: no action, no follow-up text and no red flag. *)
Theorem formatNextSteps_empty_iff (nextSteps : NextSteps) :
  formatNextSteps nextSteps = "" ↔
  actions nextSteps = []
  ∧ truthy (follow_up_appointment nextSteps) = false
  ∧ (∀ flags, red_flags nextSteps = Present flags → flags = []).
Proof.
  rewrite formatNextSteps_closed, !append_eq_nil.
  rewrite text_concat_lines_nil.
  2:{ intros i a. unfold action_line. rewrite <- !append_assoc.
      apply ends_with_LF_nonempty. }
  assert (follow_up_line (follow_up_appointment nextSteps) = "" ↔
          truthy (follow_up_appointment nextSteps) = false) as ->.
  { unfold follow_up_line.
    by destruct (follow_up_appointment nextSteps) as [| |[|c s]]. }
  assert (red_flags_block (red_flags nextSteps) = "" ↔
          ∀ flags, red_flags nextSteps = Present flags → flags = []) as ->.
  { unfold red_flags_block, red_flags_header.
    destruct (red_flags nextSteps) as [| |[|flag flags]]; simpl.
    - split; [by intros _ ? ?|done].
    - split; [by intros _ ? ?|done].
    - split; [by intros _ ? [= <-]|done].
    - split; [done|]. intros H. by specialize (H _ eq_refl). }
  done.
Qed.

Lemma titled_block_present title x :
  titled_block title (present_text x) = titled_block title x.
Proof. by destruct x as [| |[|c s]]. Qed.

Lemma assessment_line_tidy n a :
  assessment_line n (tidy_Assessment a) = assessment_line n a.
Proof.
  unfold assessment_line, icd_suffix, severity_suffix. simpl.
  by destruct (icd_code a) as [| |[|c s]], (severity a) as [| |sev].
Qed.

Lemma action_line_tidy n a :
  action_line n (tidy_NextStepAction a) = action_line n a.
Proof.
  unfold action_line, timeline_suffix, priority_suffix. simpl.
  by destruct (timeline a) as [| |[|c s]], (priority a) as [| |p].
Qed.

Lemma assessment_block_tidy l :
  assessment_block (map tidy_Assessment l) = assessment_block l.
Proof.
  unfold assessment_block. rewrite imap_map. do 4 f_equal.
  apply imap_ext. intros i a _. apply assessment_line_tidy.
Qed.

Lemma action_lines_tidy l :
  imap (fun i a => action_line (i + 1) a) (map tidy_NextStepAction l)
  = imap (fun i a => action_line (i + 1) a) l.
Proof.
  rewrite imap_map. apply imap_ext. intros i a _. apply action_line_tidy.
Qed.

(** X15.  The formatters do not tell [null], [undefined] and the empty
    string apart: replacing every optional field that holds [null] or an
    empty text (or an empty list of red flags) by an absent one leaves
    both documents unchanged. *)
Theorem formatters_ignore_empty_optionals (summary : ClinicalSummary)
    (nextSteps : NextSteps) :
  formatClinicalSummary (tidy_ClinicalSummary summary)
  = formatClinicalSummary summary
  ∧ formatNextSteps (tidy_NextSteps nextSteps) = formatNextSteps nextSteps.
Proof.
  rewrite !formatClinicalSummary_closed, !formatNextSteps_closed. split.
  - unfold summary_preamble. simpl.
    by rewrite !titled_block_present, assessment_block_tidy.
  - simpl. rewrite action_lines_tidy. do 2 f_equal.
    + by destruct (follow_up_appointment nextSteps) as [| |[|c s]].
    + by destruct (red_flags nextSteps) as [| |[|flag flags]].
Qed.

Lemma newline_terminated_append s t :
  newline_terminated t → newline_terminated (s +:+ t).
Proof. intros [pre ->]. exists (s +:+ pre). by rewrite append_assoc. Qed.

Lemma newline_terminated_lines {A} (line : nat → A → string) (l : list A) :
  (∀ i x, newline_terminated (line i x)) →
  l ≠ [] → newline_terminated (text_concat (imap line l)).
Proof.
  revert line. induction l as [|x l IH]; intros line Hline Hl; [done|].
  cbn [imap]. rewrite text_concat_cons. destruct l as [|y l].
  - simpl. rewrite append_nil_r. apply Hline.
  - apply newline_terminated_append. apply IH; [|done].
    intros i z. apply Hline.
Qed.

Lemma newline_terminated_list (g : string → string) (l : list string) :
  (∀ x, newline_terminated (g x)) →
  l ≠ [] → newline_terminated (text_concat (map g l)).
Proof.
  intros Hg Hl. rewrite <- imap_ignore_index.
  by apply (newline_terminated_lines (fun _ x => g x)).
Qed.

Lemma newline_terminated_LF s : newline_terminated (s +:+ LF).
Proof. by exists s. Qed.

Ltac ends_with_LF :=
  repeat apply newline_terminated_append;
  first [ apply newline_terminated_LF | by exists "" ].

(** X16.  The clinical summary always ends with a line feed; the next
    steps end with a line feed unless they are empty. *)
Theorem formatters_end_lines (summary : ClinicalSummary)
    (nextSteps : NextSteps) :
  newline_terminated (formatClinicalSummary summary)
  ∧ (formatNextSteps nextSteps = ""
     ∨ newline_terminated (formatNextSteps nextSteps)).
Proof.
  rewrite formatClinicalSummary_closed, formatNextSteps_closed. split.
  - do 3 apply newline_terminated_append.
    destruct (additional_notes summary) as [| |[|c s]];
      unfold titled_block; rewrite ?append_nil_r; [| | |ends_with_LF].
    all: unfold assessment_block;
      destruct (assessments summary) as [|a l];
      [simpl; rewrite ?append_nil_r; ends_with_LF|];
      do 3 apply newline_terminated_append;
      apply (newline_terminated_lines
               (fun i a => assessment_line (i + 1) a)); [|done];
      intros i x; unfold assessment_line; ends_with_LF.
  - destruct (red_flags nextSteps) as [| |[|flag flags]];
      unfold red_flags_block; rewrite ?append_nil_r.
    4:{ right. do 3 apply newline_terminated_append.
        apply (newline_terminated_list (fun fl => "- " +:+ fl +:+ LF));
          [|done].
        intros x. ends_with_LF. }
    all: destruct (follow_up_appointment nextSteps) as [| |[|c s]];
      unfold follow_up_line; rewrite ?append_nil_r;
      try (right; apply newline_terminated_append; ends_with_LF).
    all: destruct (actions nextSteps) as [|a l]; [by left|right];
      apply (newline_terminated_lines (fun i a => action_line (i + 1) a));
      [|done]; intros i x; unfold action_line; ends_with_LF.
Qed.

(** ** The further properties at the frames of the test suites *)

Lemma complete_nonconforming_payload_fails_witness :
  envelope (decoder_of all_frames) (wire "frame-10") "complete" "data"
           (Some bad_payload)
  ∧ conforms ConsultationSummaryResponseSchema (Some bad_payload) = false
  ∧ ∃ st', onmessage (decoder_of all_frames) (wire "frame-10") streaming
           = Normal st'
           ∧ structuredOutput (form st') = structuredOutput (form streaming)
           ∧ loading (form st') = false
           ∧ effects st' =
               effects streaming ++
               [console_log "Stream complete, received validated data" None;
                console_error "Validation failed:"
                  (arg_ZodError
                     (issues_of ConsultationSummaryResponseSchema
                        (Some bad_payload)));
                alert "Failed to validate response"].
Proof.
  split; [known_frame|]. split; [vm_compute; reflexivity|].
  apply (complete_nonconforming_payload_fails (decoder_of all_frames)
           (wire "frame-10") streaming (Some bad_payload)).
  - known_frame.
  - vm_compute; reflexivity.
Defined.

Lemma streaming_preview_never_shows_witness :
  streamingBuffer idle_form = ""
  ∧ ∃ st', handleSubmit (decoder_of all_frames) (Some "fake-jwt")
             (map Message [wire "frame-1"; wire "frame-5"]) idle_form []
           = Normal st'
           ∧ streamingBuffer (form st') = ""
           ∧ showsStreamingPreview (form st') = false.
Proof.
  split; [reflexivity|].
  apply (streaming_preview_never_shows (decoder_of all_frames)
           (Some "fake-jwt") (map Message [wire "frame-1"; wire "frame-5"])
           idle_form []).
  reflexivity.
Defined.

Lemma conforming_complete_always_sets_output_witness :
  envelope (decoder_of all_frames) (wire "frame-5") "complete" "data"
           (Some valid_payload)
  ∧ conforms ConsultationSummaryResponseSchema (Some valid_payload) = true
  ∧ ∃ st', deliver (decoder_of all_frames)
             ([Message (wire "frame-7")] ++ [Message (wire "frame-5")])
             streaming
           = Normal st'
           ∧ structuredOutput (form st')
             = (recognised ConsultationSummaryResponseSchema
                  <$> Some valid_payload)
           ∧ loading (form st') = false
           ∧ showsResults (form st') = true.
Proof.
  split; [known_frame|]. split; [vm_compute; reflexivity|].
  apply (conforming_complete_always_sets_output (decoder_of all_frames)
           [Message (wire "frame-7")] (wire "frame-5") streaming
           (Some valid_payload)).
  - known_frame.
  - vm_compute; reflexivity.
Defined.

Lemma chunk_without_content_appends_undefined_witness :
  envelope (decoder_of all_frames) (wire "frame-11") "chunk" "content"
           undefined
  ∧ onmessage (decoder_of all_frames) (wire "frame-11") streaming
    = Normal (with_buffer (buffer streaming +:+ "undefined") streaming).
Proof.
  split; [known_frame|].
  apply (chunk_without_content_appends_undefined (decoder_of all_frames)
           (wire "frame-11") streaming).
  known_frame.
Defined.

Lemma safeParse_idempotent_witness :
  safeParse ConsultationSummaryResponseSchema (Some extra_payload)
  = SafeParseSuccess (Some valid_payload)
  ∧ safeParse ConsultationSummaryResponseSchema (Some valid_payload)
    = SafeParseSuccess (Some valid_payload).
Proof.
  split; [vm_compute; reflexivity|].
  apply (safeParse_idempotent (Some extra_payload) (Some valid_payload)).
  vm_compute; reflexivity.
Defined.

Example formatPatientEmail_test :
  let result := formatPatientEmail capitalize_ascii test_email in
  includes result "Hi John," = true
  ∧ includes result "Signs of tension headache" = true
  ∧ includes result "Use acetaminophen as needed" = true
  ∧ includes result "[Medication] Take acetaminophen when headache occurs"
    = true
  ∧ includes result "Sudden severe headache" = true
  ∧ includes result "Dr. Smith" = true.
Proof. vm_compute. done. Qed.

(** A value that cannot be turned into text throws inside the [try] block:
    the chunk is not appended; the error is logged but not alerted, and
    loading goes on. *)
Example uncoercible_values_are_caught :
  ∃ st1 st2,
    onmessage (decoder_of coercion_frames) (wire "frame-12") streaming
    = Normal st1
    ∧ onmessage (decoder_of coercion_frames) (wire "frame-13") streaming
      = Normal st2
    ∧ buffer st1 = "" ∧ form st1 = idle_form
    ∧ effects st1 =
        [console_error "Failed to parse SSE message:" (arg_exn TypeError);
         console_log "Raw data:" (Some (arg_text "frame-12"))]
    ∧ loading (form st2) = true
    ∧ effects st2 =
        [console_error "Backend error:"
           (arg_value (Some (obj [("toString", JStr "x")])));
         console_error "Failed to parse SSE message:" (arg_exn TypeError);
         console_log "Raw data:" (Some (arg_text "frame-13"))].
Proof. eexists _, _. repeat split; vm_compute; reflexivity. Qed.
